(** * Light system program SDK: account metas, packed accounts, transactions

    A shallow embedding of [create-light-system-program-sdk.ts]:
    - [getLightSystemAccountMetasV2], the fixed-order list of protocol
      accounts;
    - the [PackedAccounts] class (an insertion-ordered [Map] from address to
      [[index, meta]], a counter and two arrays), with explicit state passing;
    - [buildAndSignTransaction], in a small error monad that also records the
      calls made to the outside world.

    JavaScript values are modelled as follows.  An [Address] is a string.  An
    optional field ([?:]) is an [option]; [x ?? y] and a destructuring default
    test for [undefined] only, whereas [if (x)] tests truthiness, so the empty
    string counts as absent there.  A [Map] keeps its keys in insertion order:
    it is an association list whose [set] overwrites in place or appends.
    Numbers are [nat]: the counter starts at 0 and only ever grows by 1, and
    the 2^53 limit of doubles is out of reach of any real map.  [await] is
    sequencing; a rejected promise is [Throw]. *)

From Stdlib Require Import String List Bool Arith ZArith Lia.
From Stdlib Require Import Sorting.Sorted Sorting.Permutation.
Import ListNotations.
Open Scope string_scope.
Open Scope list_scope.

Set Implicit Arguments.

(** ** Values *)

Definition Address := string.

(** [AccountRole] of [@solana/kit]. *)
Inductive AccountRole :=
| READONLY
| WRITABLE
| READONLY_SIGNER
| WRITABLE_SIGNER.

Record AccountMeta := mkMeta { address : Address; role : AccountRole }.

(** ** Thrown errors *)

Inductive result (A : Type) :=
| Ok (a : A)
| Throw (message : string).
Arguments Ok {A} a.
Arguments Throw {A} message.

Definition result_bind {A B} (r : result A) (k : A -> result B) : result B :=
  match r with
  | Ok a => k a
  | Throw e => Throw e
  end.

Declare Scope result_scope.
Delimit Scope result_scope with result.
Notation "'await' x <- c ;; k" := (result_bind c (fun x => k))
  (at level 61, x pattern, c at next level, right associativity) : result_scope.

(** ** Constants *)

Definition DEFAULT_REGISTERED_PROGRAM_PDA_ADDRESS : Address :=
  "35hkDgaAKwMCaxRz2ocSZ6NaUrtKkyNqU6c4RV3tYJRh".
Definition DEFAULT_NOOP_PROGRAM_ADDRESS : Address :=
  "noopb9bkMVfRPU8AsbpTUg8AQkHtKwMYZiFUjNRtMmV".
Definition DEFAULT_ACCOUNT_COMPRESSION_PROGRAM_ADDRESS : Address :=
  "compr6CUsB5m2jS4Y3831ztGSTnDpnKJTKS95d64XVq".
Definition DEFAULT_SYSTEM_PROGRAM_ADDRESS : Address :=
  "11111111111111111111111111111111".
Definition CPI_AUTHORITY_SEED : string := "cpi_authority".

(** ** JavaScript tests on optional values *)

(** [if (x)] for [x : Address | undefined]: [undefined] and the empty string
    are falsy. *)
Definition truthy (x : option Address) : bool :=
  match x with
  | Some a => negb (a =? "")
  | None => false
  end.

(** [x ?? d] and the destructuring default [x = d]. *)
Definition nullish_or {A} (x : option A) (d : A) : A :=
  match x with
  | Some a => a
  | None => d
  end.

(** ** SystemAccountMetaConfig *)

Record SystemAccountMetaConfig := mkConfig {
  cpiContext : option Address;
  selfProgram : Address;
  solCompressionRecipient : option Address;
  solPoolPda : option Address
}.

Module SystemAccountMetaConfig_static.

(** [SystemAccountMetaConfig.new] *)
Definition new (selfProgram : Address) : SystemAccountMetaConfig :=
  {| cpiContext := None; selfProgram := selfProgram;
     solCompressionRecipient := None; solPoolPda := None |}.

(** [SystemAccountMetaConfig.newWithCpiContext] *)
Definition newWithCpiContext (selfProgram cpiContext : Address)
  : SystemAccountMetaConfig :=
  {| cpiContext := Some cpiContext; selfProgram := selfProgram;
     solCompressionRecipient := None; solPoolPda := None |}.

End SystemAccountMetaConfig_static.

(** The second argument of [getLightSystemAccountMetasV2]. *)
Record LightSystemConfig := mkLightSystemConfig {
  accountCompressionAuthority : option Address;
  accountCompressionProgram : option Address;
  lightSystemProgram : Address;
  registeredProgramPda : option Address
}.

(** [array.push(x)] *)
Definition push {A} (l : list A) (x : A) : list A := l ++ [x].

(** ** The resolver

    [getProgramDerivedAddress] belongs to [@solana/kit]: it is a parameter.
    It returns the pair [[address, bump]] or rejects. *)

Section Resolver.

Variable getProgramDerivedAddress :
  Address -> list string -> result (Address * nat).

Definition deriveAccountCompressionAuthority (programAddress : Address)
  : result Address :=
  (await pda <- getProgramDerivedAddress programAddress [CPI_AUTHORITY_SEED] ;;
   Ok (fst pda))%result.

Definition getLightSystemAccountMetasV2
    (config : SystemAccountMetaConfig) (opts : LightSystemConfig)
  : result (list AccountMeta) :=
  let accountCompressionProgram :=
    nullish_or (accountCompressionProgram opts)
               DEFAULT_ACCOUNT_COMPRESSION_PROGRAM_ADDRESS in
  let registeredProgramPda :=
    nullish_or (registeredProgramPda opts)
               DEFAULT_REGISTERED_PROGRAM_PDA_ADDRESS in
  (await pda <- getProgramDerivedAddress (selfProgram config)
                  [CPI_AUTHORITY_SEED] ;;
   let cpiSigner := fst pda in
   await resolvedAccountCompressionAuthority <-
     match accountCompressionAuthority opts with
     | Some a => Ok a
     | None => deriveAccountCompressionAuthority (lightSystemProgram opts)
     end ;;
   let metas :=
     [ mkMeta (lightSystemProgram opts) READONLY;
       mkMeta cpiSigner READONLY;
       mkMeta registeredProgramPda READONLY;
       mkMeta resolvedAccountCompressionAuthority READONLY;
       mkMeta accountCompressionProgram READONLY;
       mkMeta DEFAULT_SYSTEM_PROGRAM_ADDRESS READONLY ] in
   let metas :=
     if truthy (solPoolPda config)
     then push metas (mkMeta (nullish_or (solPoolPda config) "") WRITABLE)
     else metas in
   let metas :=
     if truthy (solCompressionRecipient config)
     then push metas
            (mkMeta (nullish_or (solCompressionRecipient config) "") WRITABLE)
     else metas in
   let metas :=
     if truthy (cpiContext config)
     then push metas (mkMeta (nullish_or (cpiContext config) "") WRITABLE)
     else metas in
   Ok metas)%result.

End Resolver.

(** ** [Map<Address, V>]: keys in insertion order *)

Module JsMap.
Section WithValue.
Variable V : Type.

Definition t := list (Address * V).

Definition empty : t := [].

Fixpoint get (m : t) (k : Address) : option V :=
  match m with
  | [] => None
  | (k', v) :: m' => if k' =? k then Some v else get m' k
  end.

(** An existing key keeps its place, a new one goes last. *)
Fixpoint set (m : t) (k : Address) (v : V) : t :=
  match m with
  | [] => [(k, v)]
  | (k', v') :: m' =>
      if k' =? k then (k, v) :: m' else (k', v') :: set m' k v
  end.

Definition keys (m : t) : list Address := List.map fst m.
Definition values (m : t) : list V := List.map snd m.
Definition size (m : t) : nat := length m.
End WithValue.
Arguments empty {V}.
End JsMap.

(** ** [Array.prototype.sort(compareFn)]

    The sort is stable (ECMAScript 2019) and, for a comparator that is a
    total preorder, its result is the one stable ordering of the array: the
    insertion sort below, which puts an element before the first later
    element it does not exceed. *)

Section ArraySort.
Variable A : Type.
Variable compareFn : A -> A -> Z.

Fixpoint sort_insert (x : A) (l : list A) : list A :=
  match l with
  | [] => [x]
  | y :: l' =>
      if (compareFn x y <=? 0)%Z then x :: l else y :: sort_insert x l'
  end.

Fixpoint sort (l : list A) : list A :=
  match l with
  | [] => []
  | x :: l' => sort_insert x (sort l')
  end.
End ArraySort.

(** ** PackedAccounts *)

(** [type PackedMeta = readonly [index: number, meta: AccountMeta]] *)
Abbreviation PackedMeta := (nat * AccountMeta)%type (only parsing).

(** [(a, b) => a[0] - b[0]] *)
Definition byIndex (a b : PackedMeta) : Z := (Z.of_nat (fst a) - Z.of_nat (fst b))%Z.

Record PackedAccounts := mkPackedAccounts {
  map : JsMap.t PackedMeta;
  nextIndex : nat;
  preAccounts : list AccountMeta;
  systemAccounts : list AccountMeta
}.

(** The value of [toAccountMetas]. *)
Record AccountMetas := mkAccountMetas {
  packedStart : nat;
  remainingAccounts : list AccountMeta;
  systemStart : nat
}.

(** [new PackedAccounts()] *)
Definition new_PackedAccounts : PackedAccounts :=
  {| map := JsMap.empty; nextIndex := 0; preAccounts := []; systemAccounts := [] |}.

Definition set_map (this : PackedAccounts) (m : JsMap.t PackedMeta) :=
  {| map := m; nextIndex := nextIndex this;
     preAccounts := preAccounts this; systemAccounts := systemAccounts this |}.

Definition set_nextIndex (this : PackedAccounts) (n : nat) :=
  {| map := map this; nextIndex := n;
     preAccounts := preAccounts this; systemAccounts := systemAccounts this |}.

Definition set_preAccounts (this : PackedAccounts) (l : list AccountMeta) :=
  {| map := map this; nextIndex := nextIndex this;
     preAccounts := l; systemAccounts := systemAccounts this |}.

Definition set_systemAccounts (this : PackedAccounts) (l : list AccountMeta) :=
  {| map := map this; nextIndex := nextIndex this;
     preAccounts := preAccounts this; systemAccounts := l |}.

(** Each method takes [this] and returns its value with the new [this]. *)

Definition addPreAccountsMeta (accountMeta : AccountMeta) (this : PackedAccounts)
  : PackedAccounts :=
  set_preAccounts this (push (preAccounts this) accountMeta).

Definition addPreAccountsSigner (address : Address) (this : PackedAccounts)
  : PackedAccounts :=
  set_preAccounts this (push (preAccounts this) (mkMeta address READONLY_SIGNER)).

Definition addPreAccountsSignerMut (address : Address) (this : PackedAccounts)
  : PackedAccounts :=
  set_preAccounts this (push (preAccounts this) (mkMeta address WRITABLE_SIGNER)).

Definition insertOrGetConfig (address : Address) (isSigner isWritable : bool)
    (this : PackedAccounts) : nat * PackedAccounts :=
  match JsMap.get (map this) address with
  | Some existing => (fst existing, this)
  | None =>
      let index := nextIndex this in
      let this := set_nextIndex this (nextIndex this + 1) in
      let role :=
        if isSigner
        then if isWritable then WRITABLE_SIGNER else READONLY_SIGNER
        else if isWritable then WRITABLE else READONLY in
      let this :=
        set_map this (JsMap.set (map this) address (index, mkMeta address role)) in
      (index, this)
  end.

Definition insertOrGet (address : Address) (this : PackedAccounts)
  : nat * PackedAccounts :=
  insertOrGetConfig address false true this.

Definition insertOrGetReadOnly (address : Address) (this : PackedAccounts)
  : nat * PackedAccounts :=
  insertOrGetConfig address false false this.

Definition toAccountMetas (this : PackedAccounts) : AccountMetas * PackedAccounts :=
  let packed := List.map snd (sort byIndex (JsMap.values (map this))) in
  let systemStart := length (preAccounts this) in
  let packedStart := systemStart + length (systemAccounts this) in
  ({| packedStart := packedStart;
      remainingAccounts := preAccounts this ++ systemAccounts this ++ packed;
      systemStart := systemStart |},
   this).

(** The three ways to insert, as data. *)
Inductive InsertCall :=
| CallInsertOrGet (address : Address)
| CallInsertOrGetReadOnly (address : Address)
| CallInsertOrGetConfig (address : Address) (isSigner isWritable : bool).

Definition inserted_address (c : InsertCall) : Address :=
  match c with
  | CallInsertOrGet a | CallInsertOrGetReadOnly a | CallInsertOrGetConfig a _ _ => a
  end.

Definition perform_insert (c : InsertCall) (this : PackedAccounts)
  : nat * PackedAccounts :=
  match c with
  | CallInsertOrGet a => insertOrGet a this
  | CallInsertOrGetReadOnly a => insertOrGetReadOnly a this
  | CallInsertOrGetConfig a s w => insertOrGetConfig a s w this
  end.

(** A sequence of insert calls, with the indices they return. *)
Fixpoint perform_inserts (calls : list InsertCall) (this : PackedAccounts)
  : list nat * PackedAccounts :=
  match calls with
  | [] => ([], this)
  | c :: calls' =>
      let (i, this) := perform_insert c this in
      let (rest, this) := perform_inserts calls' this in
      (i :: rest, this)
  end.

Section PackedAccountsWithSystemAccounts.

Variable getProgramDerivedAddress :
  Address -> list string -> result (Address * nat).

(** The metas are pushed once the promise has resolved: a rejection leaves
    [this] as it was. *)
Definition addSystemAccountsV2 (config : SystemAccountMetaConfig)
    (lightSystemConfig : LightSystemConfig) (this : PackedAccounts)
  : result unit * PackedAccounts :=
  match getLightSystemAccountMetasV2 getProgramDerivedAddress config
          lightSystemConfig with
  | Ok metas => (Ok tt, set_systemAccounts this (systemAccounts this ++ metas))
  | Throw e => (Throw e, this)
  end.

Definition newWithSystemAccountsV2 (config : SystemAccountMetaConfig)
    (lightSystemConfig : LightSystemConfig) : result PackedAccounts :=
  let instance := new_PackedAccounts in
  match addSystemAccountsV2 config lightSystemConfig instance with
  | (Ok _, instance) => Ok instance
  | (Throw e, _) => Throw e
  end.

(** Every public method of the class, as data. *)
Inductive Call :=
| CallAddPreAccountsMeta (accountMeta : AccountMeta)
| CallAddPreAccountsSigner (address : Address)
| CallAddPreAccountsSignerMut (address : Address)
| CallAddSystemAccountsV2 (config : SystemAccountMetaConfig)
                          (lightSystemConfig : LightSystemConfig)
| CallInsert (c : InsertCall)
| CallToAccountMetas.

(** The state a call leaves behind. *)
Definition perform (c : Call) (this : PackedAccounts) : PackedAccounts :=
  match c with
  | CallAddPreAccountsMeta m => addPreAccountsMeta m this
  | CallAddPreAccountsSigner a => addPreAccountsSigner a this
  | CallAddPreAccountsSignerMut a => addPreAccountsSignerMut a this
  | CallAddSystemAccountsV2 config lsc => snd (addSystemAccountsV2 config lsc this)
  | CallInsert i => snd (perform_insert i this)
  | CallToAccountMetas => snd (toAccountMetas this)
  end.

(** The states an instance can be in: a fresh one, and whatever a method
    call makes of a reachable one. *)
Inductive reachable : PackedAccounts -> Prop :=
| reachable_new : reachable new_PackedAccounts
| reachable_perform c this : reachable this -> reachable (perform c this).

End PackedAccountsWithSystemAccounts.

(** ** Building and signing a transaction *)

Record BlockhashLifetimeConstraint := mkLifetime {
  blockhash : string;
  lastValidBlockHeight : Z
}.

(** [BlockhashLifetimeConstraint | { value: BlockhashLifetimeConstraint }] *)
Inductive LatestBlockhashResponse :=
| Bare (constraint : BlockhashLifetimeConstraint)
| WithValue (value : BlockhashLifetimeConstraint).

Definition normalizeBlockhashLifetimeConstraint
    (response : LatestBlockhashResponse) : BlockhashLifetimeConstraint :=
  match response with
  | WithValue value => value
  | Bare constraint => constraint
  end.

(** [0 | 'legacy'] *)
Inductive Version := V0 | Legacy.

Record Instruction := mkInstruction {
  accounts : option (list AccountMeta);
  data : option (list Byte.byte);
  programAddress : Address
}.

(** What [rpc.getLatestBlockhash().send()] settles to. *)
Record GetLatestBlockhashApi := mkRpc {
  getLatestBlockhash_send : result LatestBlockhashResponse
}.

Section Transactions.

(** The signer, message and transaction types of [@solana/kit], and its
    functions, are parameters. *)
Variables TransactionSigner TransactionMessage Transaction : Type.
Variable createTransactionMessage : Version -> TransactionMessage.
Variable setTransactionMessageFeePayerSigner :
  TransactionSigner -> TransactionMessage -> TransactionMessage.
Variable setTransactionMessageLifetimeUsingBlockhash :
  BlockhashLifetimeConstraint -> TransactionMessage -> TransactionMessage.
Variable appendTransactionMessageInstructions :
  list Instruction -> TransactionMessage -> TransactionMessage.
Variable signTransactionMessageWithSigners :
  TransactionMessage -> result Transaction.

Record BuildAndSignTransactionInput := mkBuildInput {
  feePayer : TransactionSigner;
  instructions : list Instruction;
  latestBlockhash : option BlockhashLifetimeConstraint;
  rpc : option GetLatestBlockhashApi;
  version : option Version
}.

(** The calls that leave this module, in the order they are made. *)
Inductive Event :=
| RpcGetLatestBlockhash
| CreateTransactionMessage (v : Version)
| SetFeePayerSigner (s : TransactionSigner)
| SetLifetimeUsingBlockhash (c : BlockhashLifetimeConstraint)
| AppendInstructions (is_ : list Instruction)
| SignWithSigners (m : TransactionMessage).

(** A computation may throw, and appends to the log of calls. *)
Definition IO (A : Type) := list Event -> result A * list Event.

Definition io_ret {A} (a : A) : IO A := fun log => (Ok a, log).

Definition io_throw {A} (message : string) : IO A :=
  fun log => (Throw message, log).

Definition io_bind {A B} (c : IO A) (k : A -> IO B) : IO B :=
  fun log =>
    match c log with
    | (Ok a, log') => k a log'
    | (Throw e, log') => (Throw e, log')
    end.

(** An outside call: logged, then it settles. *)
Definition io_call {A} (e : Event) (r : result A) : IO A :=
  fun log => (r, log ++ [e]).

Notation "x <- c ;; k" := (io_bind c (fun x => k))
  (at level 61, c at next level, right associativity).

Definition resolveLatestBlockhash (input : BuildAndSignTransactionInput)
  : IO (option BlockhashLifetimeConstraint) :=
  match latestBlockhash input with
  | Some c => io_ret (Some c)
  | None =>
      match rpc input with
      | Some r =>
          response <- io_call RpcGetLatestBlockhash (getLatestBlockhash_send r) ;;
          io_ret (Some (normalizeBlockhashLifetimeConstraint response))
      | None => io_ret None
      end
  end.

Definition buildAndSignTransaction (input : BuildAndSignTransactionInput)
  : IO Transaction :=
  let version := nullish_or (version input) V0 in
  resolvedLatestBlockhash <- resolveLatestBlockhash input ;;
  match resolvedLatestBlockhash with
  | None => io_throw "latestBlockhash is required when rpc is not provided."
  | Some resolvedLatestBlockhash =>
      m <- io_call (CreateTransactionMessage version)
             (Ok (createTransactionMessage version)) ;;
      m <- io_call (SetFeePayerSigner (feePayer input))
             (Ok (setTransactionMessageFeePayerSigner (feePayer input) m)) ;;
      m <- io_call (SetLifetimeUsingBlockhash resolvedLatestBlockhash)
             (Ok (setTransactionMessageLifetimeUsingBlockhash
                    resolvedLatestBlockhash m)) ;;
      messageWithInstructions <-
        io_call (AppendInstructions (instructions input))
          (Ok (appendTransactionMessageInstructions (instructions input) m)) ;;
      io_call (SignWithSigners messageWithInstructions)
        (signTransactionMessageWithSigners messageWithInstructions)
  end.

(** An event that is a call to the rpc collaborator. *)
Definition consults_rpc (e : Event) : bool :=
  match e with
  | RpcGetLatestBlockhash => true
  | _ => false
  end.

End Transactions.

(** ** The AccountIndex contract, as the specification words it

    The second definition of the insert operation, written from the
    specification's contract and not from the class: one operation
    [insertOrGet(address, isSigner=false, isWritable=true)] with optional
    access-mode arguments, which returns the existing index of an address
    inserted before and otherwise assigns [index = nextIndex], increments
    [nextIndex], records the entry with the given access mode and returns
    [index]; and [insertOrGetReadOnly(address)], sugar for
    [insertOrGet(address, false, false)]. *)

Module AccountIndexContract.

(** The access role of the pair [(isSigner, isWritable)]. *)
Definition accessRole (isSigner isWritable : bool) : AccountRole :=
  match isSigner, isWritable with
  | false, false => READONLY
  | true, false => READONLY_SIGNER
  | false, true => WRITABLE
  | true, true => WRITABLE_SIGNER
  end.

Definition insertOrGet (address : Address) (isSigner isWritable : option bool)
    (table : PackedAccounts) : nat * PackedAccounts :=
  let isSigner := nullish_or isSigner false in
  let isWritable := nullish_or isWritable true in
  match JsMap.get (map table) address with
  | Some entry => (fst entry, table)
  | None =>
      let index := nextIndex table in
      (index,
       {| map := JsMap.set (map table) address
                   (index, mkMeta address (accessRole isSigner isWritable));
          nextIndex := S index;
          preAccounts := preAccounts table;
          systemAccounts := systemAccounts table |})
  end.

Definition insertOrGetReadOnly (address : Address) (table : PackedAccounts)
  : nat * PackedAccounts :=
  insertOrGet address (Some false) (Some false) table.

End AccountIndexContract.

(** ** Vocabulary for the statements *)

(** Ascending by assigned index. *)
Definition index_le (a b : PackedMeta) : Prop := fst a <= fst b.

(** The index each address of the map was given, in insertion order. *)
Definition indices (m : JsMap.t PackedMeta) : list (Address * nat) :=
  List.map (fun kv => (fst kv, fst (snd kv))) m.

(** The indices handed out are 0, 1, ..., size-1 in insertion order, and the
    counter is the size of the map. *)
Definition well_indexed (this : PackedAccounts) : Prop :=
  List.map fst (JsMap.values (map this)) = seq 0 (JsMap.size (map this))
  /\ nextIndex this = JsMap.size (map this).

(** A sequence of method calls. *)
Definition perform_all
    (getProgramDerivedAddress : Address -> list string -> result (Address * nat))
    (calls : list Call) (this : PackedAccounts) : PackedAccounts :=
  fold_left (fun this c => perform getProgramDerivedAddress c this) calls this.

(** ** Remaining accounts of an instruction

    [withRemainingAccounts] is generic in the instruction: all it needs is
    the [accounts] array; whatever else the instruction carries is [Other].
    The result of the second branch is frozen, which has no counterpart
    here. *)

Section RemainingAccounts.
Variable Other : Type.

Record InstructionWithAccounts := mkInstructionWithAccounts {
  ix_accounts : list AccountMeta;
  ix_other : Other
}.

Definition withRemainingAccounts (instruction : InstructionWithAccounts)
    (remainingAccounts : option (list AccountMeta)) : InstructionWithAccounts :=
  match remainingAccounts with
  | None => instruction
  | Some remaining =>
      if (length remaining =? 0)%nat then instruction
      else {| ix_accounts := ix_accounts instruction ++ remaining;
              ix_other := ix_other instruction |}
  end.

End RemainingAccounts.

(** ** Common accounts *)

(** [LightSystemProgramCommonAccounts] *)
Module Common.
Record t := mk {
  accountCompressionAuthority : option Address;
  accountCompressionProgram : option Address;
  noopProgram : option Address;
  registeredProgramPda : option Address
}.

Definition none : t := mk None None None None.
End Common.

(** What [resolveCommonAccounts] returns: the four addresses. *)
Module Resolved.
Record t := mk {
  accountCompressionAuthority : Address;
  accountCompressionProgram : Address;
  noopProgram : Address;
  registeredProgramPda : Address
}.
End Resolved.

(** [o?.field] *)
Definition optional_chain {A B} (o : option A) (field : A -> option B) : option B :=
  match o with
  | Some a => field a
  | None => None
  end.

(** [x ?? y ?? z] *)
Definition nullish_or3 {A} (x y : option A) (z : A) : A :=
  nullish_or x (nullish_or y z).

Section CommonAccounts.

Variable getProgramDerivedAddress :
  Address -> list string -> result (Address * nat).

(** The object literal is evaluated field by field; only the first field can
    reject. *)
Definition resolveCommonAccounts (programAddress : Address)
    (inputDefaults : option Common.t) (inputOverrides : Common.t)
  : result Resolved.t :=
  (await accountCompressionAuthority <-
     match Common.accountCompressionAuthority inputOverrides with
     | Some a => Ok a
     | None =>
         match optional_chain inputDefaults Common.accountCompressionAuthority with
         | Some a => Ok a
         | None =>
             deriveAccountCompressionAuthority getProgramDerivedAddress
               programAddress
         end
     end ;;
   Ok {| Resolved.accountCompressionAuthority := accountCompressionAuthority;
         Resolved.accountCompressionProgram :=
           nullish_or3 (Common.accountCompressionProgram inputOverrides)
             (optional_chain inputDefaults Common.accountCompressionProgram)
             DEFAULT_ACCOUNT_COMPRESSION_PROGRAM_ADDRESS;
         Resolved.noopProgram :=
           nullish_or3 (Common.noopProgram inputOverrides)
             (optional_chain inputDefaults Common.noopProgram)
             DEFAULT_NOOP_PROGRAM_ADDRESS;
         Resolved.registeredProgramPda :=
           nullish_or3 (Common.registeredProgramPda inputOverrides)
             (optional_chain inputDefaults Common.registeredProgramPda)
             DEFAULT_REGISTERED_PROGRAM_PDA_ADDRESS |})%result.

End CommonAccounts.

(** ** The SDK object

    The instruction getters come from the generated client: they are
    parameters.  A builder input is the generated input with the four common
    accounts optional, plus [remainingAccounts]; what the generated input
    holds besides ([authority], [feePayer], [inputs], ...) is [Rest]. *)

Module Build.
Record Input (Rest : Type) := mkInput {
  overrides : Common.t;
  systemProgram : option Address;
  remainingAccounts : option (list AccountMeta);
  rest : Rest
}.

(** The object handed to a generated getter: [{ ...input, ...commonAccounts,
    systemProgram }]. *)
Record Generated (Rest : Type) := mkGenerated {
  g_common : Resolved.t;
  g_systemProgram : Address;
  g_remainingAccounts : option (list AccountMeta);
  g_rest : Rest
}.
End Build.

(** The [defaults] member of the SDK object. *)
Module SdkDefaults.
Record t := mk {
  accountCompressionProgram : Address;
  noopProgram : Address;
  registeredProgramPda : Address
}.
End SdkDefaults.

Section Sdk.

Variable getProgramDerivedAddress :
  Address -> list string -> result (Address * nat).

Variables InvokeRest InvokeCpiRest InvokeCpiWithReadOnlyRest : Type.
Variables InitCpiContextAccountInput Other : Type.

Variable getInvokeInstruction :
  Build.Generated InvokeRest -> Address -> InstructionWithAccounts Other.
Variable getInvokeCpiInstruction :
  Build.Generated InvokeCpiRest -> Address -> InstructionWithAccounts Other.
Variable getInvokeCpiWithReadOnlyInstruction :
  Build.Generated InvokeCpiWithReadOnlyRest -> Address
  -> InstructionWithAccounts Other.
Variable getInitCpiContextAccountInstruction :
  InitCpiContextAccountInput -> Address -> InstructionWithAccounts Other.

(** The body the three [buildInvoke...] members share. *)
Definition buildWith (Rest : Type)
    (getInstruction : Build.Generated Rest -> Address
                      -> InstructionWithAccounts Other)
    (programAddress : Address) (defaults : option Common.t)
    (input : Build.Input Rest) : result (InstructionWithAccounts Other) :=
  (await commonAccounts <-
     resolveCommonAccounts getProgramDerivedAddress programAddress defaults
       (Build.overrides input) ;;
   let instruction :=
     getInstruction
       {| Build.g_common := commonAccounts;
          Build.g_systemProgram :=
            nullish_or (Build.systemProgram input) DEFAULT_SYSTEM_PROGRAM_ADDRESS;
          Build.g_remainingAccounts := Build.remainingAccounts input;
          Build.g_rest := Build.rest input |}
       programAddress in
   Ok (withRemainingAccounts instruction (Build.remainingAccounts input)))%result.

Record LightSystemProgramSdk := mkSdk {
  buildInitCpiContextAccountInstruction :
    InitCpiContextAccountInput -> InstructionWithAccounts Other;
  buildInvokeCpiInstruction :
    Build.Input InvokeCpiRest -> result (InstructionWithAccounts Other);
  buildInvokeCpiWithReadOnlyInstruction :
    Build.Input InvokeCpiWithReadOnlyRest
    -> result (InstructionWithAccounts Other);
  buildInvokeInstruction :
    Build.Input InvokeRest -> result (InstructionWithAccounts Other);
  sdk_defaults : SdkDefaults.t;
  sdk_programAddress : Address
}.

Definition createLightSystemProgramSdk (defaults : option Common.t)
    (programAddress : Address) : LightSystemProgramSdk :=
  {| buildInitCpiContextAccountInstruction :=
       fun input => getInitCpiContextAccountInstruction input programAddress;
     buildInvokeCpiInstruction :=
       buildWith getInvokeCpiInstruction programAddress defaults;
     buildInvokeCpiWithReadOnlyInstruction :=
       buildWith getInvokeCpiWithReadOnlyInstruction programAddress defaults;
     buildInvokeInstruction :=
       buildWith getInvokeInstruction programAddress defaults;
     sdk_defaults :=
       {| SdkDefaults.accountCompressionProgram :=
            nullish_or (optional_chain defaults Common.accountCompressionProgram)
              DEFAULT_ACCOUNT_COMPRESSION_PROGRAM_ADDRESS;
          SdkDefaults.noopProgram :=
            nullish_or (optional_chain defaults Common.noopProgram)
              DEFAULT_NOOP_PROGRAM_ADDRESS;
          SdkDefaults.registeredProgramPda :=
            nullish_or (optional_chain defaults Common.registeredProgramPda)
              DEFAULT_REGISTERED_PROGRAM_PDA_ADDRESS |};
     sdk_programAddress := programAddress |}.

End Sdk.

(** ** Sending a transaction *)

(** ['confirmed' | 'finalized' | 'processed'] *)
Inductive Commitment := Confirmed | Finalized | Processed.

Section SendAndConfirm.

Variables TransactionSigner TransactionMessage Transaction : Type.
Variables Signature RpcSubscriptions : Type.
Variable createTransactionMessage : Version -> TransactionMessage.
Variable setTransactionMessageFeePayerSigner :
  TransactionSigner -> TransactionMessage -> TransactionMessage.
Variable setTransactionMessageLifetimeUsingBlockhash :
  BlockhashLifetimeConstraint -> TransactionMessage -> TransactionMessage.
Variable appendTransactionMessageInstructions :
  list Instruction -> TransactionMessage -> TransactionMessage.
Variable signTransactionMessageWithSigners :
  TransactionMessage -> result Transaction.

(** [rpcClient]: its [rpc] is of type [unknown] and is read as a
    [GetLatestBlockhashApi | undefined]. *)
Record RpcClient := mkRpcClient {
  client_rpc : option GetLatestBlockhashApi;
  client_rpcSubscriptions : RpcSubscriptions
}.

(** A sender: [(transaction, { commitment }) => Promise<void>]. *)
Definition Sender := Transaction -> Commitment -> result unit.

Variable sendAndConfirmTransactionFactory : RpcClient -> Sender.
Variable assertIsTransactionWithBlockhashLifetime : Transaction -> result unit.
Variable getSignatureFromTransaction : Transaction -> result Signature.

Record SendAndConfirmInstructionsInput := mkSendInput {
  buildInput : BuildAndSignTransactionInput TransactionSigner;
  commitment : option Commitment;
  rpcClient : option RpcClient;
  sendAndConfirmTransaction : option Sender
}.

(** The calls that leave [sendAndConfirmInstructions]: those of
    [buildAndSignTransaction], then its own. *)
Inductive SendEvent :=
| Building (e : Event TransactionSigner TransactionMessage)
| MakeSender (c : RpcClient)
| AssertBlockhashLifetime (t : Transaction)
| InvokeSender (t : Transaction) (c : Commitment)
| GetSignature (t : Transaction).

Definition Send (A : Type) := list SendEvent -> result A * list SendEvent.

Definition send_ret {A} (a : A) : Send A := fun log => (Ok a, log).

Definition send_throw {A} (message : string) : Send A :=
  fun log => (Throw message, log).

Definition send_bind {A B} (c : Send A) (k : A -> Send B) : Send B :=
  fun log =>
    match c log with
    | (Ok a, log') => k a log'
    | (Throw e, log') => (Throw e, log')
    end.

Definition send_call {A} (e : SendEvent) (r : result A) : Send A :=
  fun log => (r, log ++ [e]).

(** A computation of [buildAndSignTransaction], run inside: its calls are
    logged as [Building] ones. *)
Definition send_building {A}
    (c : IO TransactionSigner TransactionMessage A) : Send A :=
  fun log =>
    let (r, events) := c [] in
    (r, log ++ List.map Building events).

Notation "x <- c ;; k" := (send_bind c (fun x => k))
  (at level 61, c at next level, right associativity).

Definition sendAndConfirmInstructions (input : SendAndConfirmInstructionsInput)
  : Send Signature :=
  let commitment := nullish_or (commitment input) Confirmed in
  let buildInput := buildInput input in
  signedTransaction <-
    send_building
      (buildAndSignTransaction createTransactionMessage
         setTransactionMessageFeePayerSigner
         setTransactionMessageLifetimeUsingBlockhash
         appendTransactionMessageInstructions
         signTransactionMessageWithSigners
         {| feePayer := feePayer buildInput;
            instructions := instructions buildInput;
            latestBlockhash := latestBlockhash buildInput;
            rpc := match rpc buildInput with
                   | Some r => Some r
                   | None => optional_chain (rpcClient input) client_rpc
                   end;
            version := version buildInput |}) ;;
  sendAndConfirm <-
    match sendAndConfirmTransaction input with
    | Some sender => send_ret (Some sender)
    | None =>
        match rpcClient input with
        | Some client =>
            send_call (MakeSender client)
              (Ok (Some (sendAndConfirmTransactionFactory client)))
        | None => send_ret None
        end
    end ;;
  match sendAndConfirm with
  | None => send_throw "sendAndConfirmTransaction or rpcClient is required."
  | Some sendAndConfirm =>
      _ <- send_call (AssertBlockhashLifetime signedTransaction)
             (assertIsTransactionWithBlockhashLifetime signedTransaction) ;;
      _ <- send_call (InvokeSender signedTransaction commitment)
             (sendAndConfirm signedTransaction commitment) ;;
      send_call (GetSignature signedTransaction)
        (getSignatureFromTransaction signedTransaction)
  end.

(** An event that hands a transaction to a sender. *)
Definition is_send (e : SendEvent) : bool :=
  match e with
  | InvokeSender _ _ => true
  | _ => false
  end.

End SendAndConfirm.

Arguments Building {_ _ _ _} e.
Arguments MakeSender {_ _ _ _} c.
Arguments AssertBlockhashLifetime {_ _ _ _} t.
Arguments InvokeSender {_ _ _ _} t c.
Arguments GetSignature {_ _ _ _} t.

(** Every entry of the map is filed under the address of its meta, and no
    address has two entries. *)
Definition well_keyed (this : PackedAccounts) : Prop :=
  NoDup (JsMap.keys (map this))
  /\ Forall (fun kv => address (snd (snd kv)) = fst kv) (map this).

(** [if (x)] makes the empty string the same as [undefined]. *)
Definition blank (x : option Address) : option Address :=
  if truthy x then x else None.

(** * Properties *)

Unset Implicit Arguments.

(** ** The resolver *)

Section ResolverFacts.

Variable derive : Address -> list string -> result (Address * nat).

Lemma truthy_Some (a : Address) : a <> "" -> truthy (Some a) = true.
Proof.
  intros Ha. unfold truthy.
  destruct (String.eqb_spec a ""); [contradiction | reflexivity].
Qed.

(** A rejected derivation of the signer is the rejection of the whole call. *)
Lemma getLightSystemAccountMetasV2_throws config opts e :
  derive (selfProgram config) [CPI_AUTHORITY_SEED] = Throw e ->
  getLightSystemAccountMetasV2 derive config opts = Throw e.
Proof.
  intros H. unfold getLightSystemAccountMetasV2. rewrite H. reflexivity.
Qed.

(** The six fixed entries are always the head of the list. *)
Lemma getLightSystemAccountMetasV2_prefix config opts metas :
  getLightSystemAccountMetasV2 derive config opts = Ok metas ->
  exists cpiSigner authority,
    firstn 6 metas =
      [ mkMeta (lightSystemProgram opts) READONLY;
        mkMeta cpiSigner READONLY;
        mkMeta (nullish_or (registeredProgramPda opts)
                  DEFAULT_REGISTERED_PROGRAM_PDA_ADDRESS) READONLY;
        mkMeta authority READONLY;
        mkMeta (nullish_or (accountCompressionProgram opts)
                  DEFAULT_ACCOUNT_COMPRESSION_PROGRAM_ADDRESS) READONLY;
        mkMeta DEFAULT_SYSTEM_PROGRAM_ADDRESS READONLY ].
Proof.
  unfold getLightSystemAccountMetasV2, deriveAccountCompressionAuthority.
  destruct (derive (selfProgram config) _) as [[cpiSigner bump]|e]; cbn;
    [|discriminate].
  destruct (accountCompressionAuthority opts) as [override|]; cbn.
  - intros H. injection H as <-. exists cpiSigner, override.
    destruct (truthy (solPoolPda config)),
             (truthy (solCompressionRecipient config)),
             (truthy (cpiContext config)); reflexivity.
  - destruct (derive (lightSystemProgram opts) _) as [[authority bump']|e];
      cbn; [|discriminate].
    intros H. injection H as <-. exists cpiSigner, authority.
    destruct (truthy (solPoolPda config)),
             (truthy (solCompressionRecipient config)),
             (truthy (cpiContext config)); reflexivity.
Qed.

End ResolverFacts.

(** The two public constructors: [new] gives the six fixed metas, and
    [newWithCpiContext] a seventh, writable, for the context account. *)
Lemma getLightSystemAccountMetasV2_new derive self opts cpiSigner bump metas :
  derive self [CPI_AUTHORITY_SEED] = Ok (cpiSigner, bump) ->
  getLightSystemAccountMetasV2 derive (SystemAccountMetaConfig_static.new self) opts
    = Ok metas ->
  length metas = 6 /\ Forall (fun m => role m = READONLY) metas.
Proof.
  intros Hs. unfold getLightSystemAccountMetasV2, deriveAccountCompressionAuthority.
  cbn [selfProgram SystemAccountMetaConfig_static.new]. rewrite Hs. cbn.
  destruct (accountCompressionAuthority opts) as [override|]; cbn.
  - intros H. injection H as <-. split; [reflexivity | repeat constructor].
  - destruct (derive (lightSystemProgram opts) _) as [[authority bump']|e]; cbn;
      [|discriminate].
    intros H. injection H as <-. split; [reflexivity | repeat constructor].
Qed.

(** The repository's test of the static ordering: entries 0, 2 and 4. *)
Example getLightSystemAccountMetasV2_static_ordering :
  let lightSystemProgram := "SySTEM1eSU2p4BGQfQpimFEWWSC1XDFeun3Nqzz3rT7" in
  exists metas,
    getLightSystemAccountMetasV2 (fun p _ => Ok ("pda:" ++ p, 255)%string)
      (SystemAccountMetaConfig_static.new DEFAULT_SYSTEM_PROGRAM_ADDRESS)
      (mkLightSystemConfig None None lightSystemProgram None) = Ok metas
    /\ option_map address (nth_error metas 0) = Some lightSystemProgram
    /\ option_map address (nth_error metas 2)
       = Some DEFAULT_REGISTERED_PROGRAM_PDA_ADDRESS
    /\ option_map address (nth_error metas 4)
       = Some DEFAULT_ACCOUNT_COMPRESSION_PROGRAM_ADDRESS.
Proof. eexists. split; [reflexivity|]. repeat split. Qed.

(** C1. Whenever the two derivations resolve, [getLightSystemAccountMetasV2]
    returns the six read-only metas [target program, authority derived from
    config.selfProgram with CPI_AUTHORITY_SEED, registeredProgramPda or its
    default, compression authority (the override, else derived from the
    target program), accountCompressionProgram or its default, system
    program], followed by solPoolPda, solCompressionRecipient and cpiContext,
    in that order, each writable and each present exactly when configured;
    with none of the three configured the list is exactly those six.  An
    address is a non-empty string. *)
Theorem getLightSystemAccountMetasV2_layout
    (derive : Address -> list string -> result (Address * nat))
    (config : SystemAccountMetaConfig) (opts : LightSystemConfig)
    (cpiSigner derivedAuthority : Address) (bump bump' : nat) :
  derive (selfProgram config) [CPI_AUTHORITY_SEED] = Ok (cpiSigner, bump) ->
  (accountCompressionAuthority opts = None ->
   derive (lightSystemProgram opts) [CPI_AUTHORITY_SEED]
     = Ok (derivedAuthority, bump')) ->
  (forall a, In (Some a) [solPoolPda config; solCompressionRecipient config;
                          cpiContext config] -> a <> "") ->
  let fixed :=
    [ mkMeta (lightSystemProgram opts) READONLY;
      mkMeta cpiSigner READONLY;
      mkMeta (match registeredProgramPda opts with
              | Some a => a
              | None => DEFAULT_REGISTERED_PROGRAM_PDA_ADDRESS
              end) READONLY;
      mkMeta (match accountCompressionAuthority opts with
              | Some a => a
              | None => derivedAuthority
              end) READONLY;
      mkMeta (match accountCompressionProgram opts with
              | Some a => a
              | None => DEFAULT_ACCOUNT_COMPRESSION_PROGRAM_ADDRESS
              end) READONLY;
      mkMeta DEFAULT_SYSTEM_PROGRAM_ADDRESS READONLY ] in
  let optional (x : option Address) :=
    match x with
    | Some a => [mkMeta a WRITABLE]
    | None => []
    end in
  getLightSystemAccountMetasV2 derive config opts
    = Ok (fixed ++ optional (solPoolPda config)
                ++ optional (solCompressionRecipient config)
                ++ optional (cpiContext config))
  /\ (solPoolPda config = None -> solCompressionRecipient config = None ->
      cpiContext config = None ->
      getLightSystemAccountMetasV2 derive config opts = Ok fixed)
  /\ length fixed = 6
  /\ Forall (fun m => role m = READONLY) fixed.
Proof.
  intros Hsigner Hauthority Hwf fixed optional.
  assert (Hmain : getLightSystemAccountMetasV2 derive config opts
                  = Ok (fixed ++ optional (solPoolPda config)
                          ++ optional (solCompressionRecipient config)
                          ++ optional (cpiContext config))).
  { unfold getLightSystemAccountMetasV2, deriveAccountCompressionAuthority.
    rewrite Hsigner. cbn [result_bind fst].
    assert (Hres :
      match accountCompressionAuthority opts with
      | Some a => Ok a
      | None => result_bind (derive (lightSystemProgram opts) [CPI_AUTHORITY_SEED])
                  (fun pda => Ok (fst pda))
      end = Ok (match accountCompressionAuthority opts with
                | Some a => a
                | None => derivedAuthority
                end)).
    { destruct (accountCompressionAuthority opts); [reflexivity|].
      rewrite Hauthority by reflexivity. reflexivity. }
    rewrite Hres. cbn [result_bind].
    subst fixed optional. unfold push, nullish_or.
    destruct (solPoolPda config) as [p|];
      destruct (solCompressionRecipient config) as [r|];
      destruct (cpiContext config) as [c|];
      repeat match goal with
             | |- context [truthy (Some ?a)] =>
                 rewrite (@truthy_Some a) by (apply Hwf; cbn; auto)
             end;
      reflexivity. }
  split; [exact Hmain|]. split.
  - intros Hp Hr Hc. rewrite Hmain, Hp, Hr, Hc. subst optional. cbn.
    reflexivity.
  - split; [reflexivity|]. subst fixed. repeat constructor.
Qed.

(** C1 at work: [SySTEM...] as target, all three optional accounts set. *)
Lemma getLightSystemAccountMetasV2_layout_witness :
  getLightSystemAccountMetasV2
    (fun p _ => Ok ("pda:" ++ p, 255)%string)
    (mkConfig (Some "ctx") "self" (Some "recipient") (Some "pool"))
    (mkLightSystemConfig None None "SySTEM1eSU2p4BGQfQpimFEWWSC1XDFeun3Nqzz3rT7" None)
  = Ok [ mkMeta "SySTEM1eSU2p4BGQfQpimFEWWSC1XDFeun3Nqzz3rT7" READONLY;
         mkMeta "pda:self" READONLY;
         mkMeta DEFAULT_REGISTERED_PROGRAM_PDA_ADDRESS READONLY;
         mkMeta "pda:SySTEM1eSU2p4BGQfQpimFEWWSC1XDFeun3Nqzz3rT7" READONLY;
         mkMeta DEFAULT_ACCOUNT_COMPRESSION_PROGRAM_ADDRESS READONLY;
         mkMeta DEFAULT_SYSTEM_PROGRAM_ADDRESS READONLY;
         mkMeta "pool" WRITABLE;
         mkMeta "recipient" WRITABLE;
         mkMeta "ctx" WRITABLE ].
Proof.
  refine (proj1 (@getLightSystemAccountMetasV2_layout
            (fun p _ => Ok ("pda:" ++ p, 255)%string)
            (mkConfig (Some "ctx") "self" (Some "recipient") (Some "pool"))
            (mkLightSystemConfig None None
               "SySTEM1eSU2p4BGQfQpimFEWWSC1XDFeun3Nqzz3rT7" None)
            "pda:self" "pda:SySTEM1eSU2p4BGQfQpimFEWWSC1XDFeun3Nqzz3rT7"
            255 255 _ _ _)).
  - reflexivity.
  - intros _. reflexivity.
  - cbn. intros a [H|[H|[H|[]]]]; injection H as <-; discriminate.
Defined.

(** ** The insertion-ordered map *)

Section JsMapFacts.
Variable V : Type.
Implicit Types (m : JsMap.t V) (k : Address) (v : V).

Lemma get_None_iff m k : JsMap.get m k = None <-> ~ In k (JsMap.keys m).
Proof.
  induction m as [|[k' v'] m IH]; cbn.
  - tauto.
  - destruct (String.eqb_spec k' k) as [->|Hne].
    + split; [discriminate | intros H; exfalso; apply H; now left].
    + rewrite IH. split.
      * intros H [Heq|Hin]; [congruence | contradiction].
      * intros H Hin. apply H. now right.
Qed.

Lemma get_Some_In m k v : JsMap.get m k = Some v -> In (k, v) m.
Proof.
  induction m as [|[k' v'] m IH]; cbn; [discriminate|].
  destruct (String.eqb_spec k' k) as [->|Hne].
  - intros H. injection H as ->. now left.
  - intros H. right. now apply IH.
Qed.

(** [set] on a new key appends. *)
Lemma set_absent m k v : JsMap.get m k = None -> JsMap.set m k v = m ++ [(k, v)].
Proof.
  induction m as [|[k' v'] m IH]; cbn; [reflexivity|].
  destruct (String.eqb_spec k' k) as [->|Hne]; [discriminate|].
  intros H. now rewrite IH.
Qed.

Lemma get_set_same m k v : JsMap.get (JsMap.set m k v) k = Some v.
Proof.
  induction m as [|[k' v'] m IH]; cbn.
  - now rewrite String.eqb_refl.
  - destruct (String.eqb_spec k' k) as [->|Hne]; cbn.
    + now rewrite String.eqb_refl.
    + destruct (String.eqb_spec k' k); [contradiction | exact IH].
Qed.

Lemma get_set_other m k k' v :
  k <> k' -> JsMap.get (JsMap.set m k v) k' = JsMap.get m k'.
Proof.
  intros Hne. induction m as [|[k0 v0] m IH]; cbn.
  - destruct (String.eqb_spec k k'); [contradiction | reflexivity].
  - destruct (String.eqb_spec k0 k) as [->|Hne0]; cbn.
    + destruct (String.eqb_spec k k'); [contradiction | reflexivity].
    + now rewrite IH.
Qed.

Lemma get_snoc_other m k k' v :
  k <> k' -> JsMap.get (m ++ [(k, v)]) k' = JsMap.get m k'.
Proof.
  intros Hne. induction m as [|[k0 v0] m IH]; cbn.
  - destruct (String.eqb_spec k k'); [contradiction | reflexivity].
  - now rewrite IH.
Qed.

Lemma get_snoc_same m k v :
  JsMap.get m k = None -> JsMap.get (m ++ [(k, v)]) k = Some v.
Proof.
  intros H. rewrite <- set_absent by exact H. apply get_set_same.
Qed.

Lemma size_set_absent m k v :
  JsMap.get m k = None -> JsMap.size (JsMap.set m k v) = S (JsMap.size m).
Proof.
  intros H. rewrite set_absent by exact H. unfold JsMap.size.
  rewrite length_app. cbn. lia.
Qed.

Lemma keys_set_absent m k v :
  JsMap.get m k = None -> JsMap.keys (JsMap.set m k v) = JsMap.keys m ++ [k].
Proof.
  intros H. rewrite set_absent by exact H. unfold JsMap.keys.
  now rewrite map_app.
Qed.

End JsMapFacts.

(** ** The sort *)

Section SortFacts.
Variable A : Type.
Variable compareFn : A -> A -> Z.
Implicit Types (x : A) (l : list A).

Lemma sort_insert_perm x l : Permutation (sort_insert compareFn x l) (x :: l).
Proof.
  induction l as [|y l IH]; cbn; [reflexivity|].
  destruct (compareFn x y <=? 0)%Z; [reflexivity|].
  rewrite IH. apply perm_swap.
Qed.

Lemma sort_perm l : Permutation (sort compareFn l) l.
Proof.
  induction l as [|x l IH]; cbn; [constructor|].
  rewrite sort_insert_perm. now constructor.
Qed.

Lemma sort_length l : length (sort compareFn l) = length l.
Proof. apply Permutation_length, sort_perm. Qed.

End SortFacts.

Lemma byIndex_le (a b : PackedMeta) :
  (byIndex a b <=? 0)%Z = true <-> index_le a b.
Proof. unfold byIndex, index_le. rewrite Z.leb_le. lia. Qed.

Lemma sort_insert_sorted (x : PackedMeta) (l : list PackedMeta) :
  StronglySorted index_le l -> StronglySorted index_le (sort_insert byIndex x l).
Proof.
  induction 1 as [|y l Hl IH Hy]; cbn.
  - repeat constructor.
  - destruct (byIndex x y <=? 0)%Z eqn:E.
    + apply byIndex_le in E. constructor; [now constructor|].
      constructor; [exact E|].
      eapply Forall_impl; [|exact Hy]. unfold index_le in *. intros; lia.
    + assert (Hyx : index_le y x).
      { unfold index_le, byIndex in *. apply Z.leb_gt in E. lia. }
      constructor; [exact IH|].
      eapply Permutation_Forall; [symmetry; apply sort_insert_perm|].
      now constructor.
Qed.

Lemma sort_sorted (l : list PackedMeta) : StronglySorted index_le (sort byIndex l).
Proof.
  induction l as [|x l IH]; cbn; [constructor|]. now apply sort_insert_sorted.
Qed.

(** Entries whose indices already count up are left as they are. *)
Lemma sort_counting (l : list PackedMeta) (start : nat) :
  List.map fst l = seq start (length l) -> sort byIndex l = l.
Proof.
  revert start. induction l as [|x l IH]; intros start H; [reflexivity|].
  cbn in H. injection H as Hx Hl. cbn. rewrite (IH _ Hl).
  destruct l as [|y l']; [reflexivity|]. cbn in Hl. injection Hl as Hy _. cbn.
  replace (byIndex x y <=? 0)%Z with true; [reflexivity|].
  symmetry. apply byIndex_le. unfold index_le. lia.
Qed.

(** ** Inserting into [PackedAccounts] *)

Lemma insertOrGetConfig_present a s w this existing :
  JsMap.get (map this) a = Some existing ->
  insertOrGetConfig a s w this = (fst existing, this).
Proof. intros H. unfold insertOrGetConfig. now rewrite H. Qed.

Lemma insertOrGetConfig_absent a s w this :
  JsMap.get (map this) a = None ->
  insertOrGetConfig a s w this
  = (nextIndex this,
     {| map := map this ++
               [(a, (nextIndex this,
                     mkMeta a (AccountIndexContract.accessRole s w)))];
        nextIndex := nextIndex this + 1;
        preAccounts := preAccounts this;
        systemAccounts := systemAccounts this |}).
Proof.
  intros H. unfold insertOrGetConfig. rewrite H. cbn.
  rewrite set_absent by exact H. now destruct s, w.
Qed.

(** Each way to insert is [insertOrGetConfig] at some flags. *)
Lemma perform_insert_config c this :
  exists s w,
    perform_insert c this = insertOrGetConfig (inserted_address c) s w this.
Proof.
  destruct c as [a|a|a s w]; cbn; [exists false, true | exists false, false
                                  | exists s, w]; reflexivity.
Qed.

Lemma perform_inserts_cons c calls this :
  perform_inserts (c :: calls) this
  = (fst (perform_insert c this)
       :: fst (perform_inserts calls (snd (perform_insert c this))),
     snd (perform_inserts calls (snd (perform_insert c this)))).
Proof.
  cbn. destruct (perform_insert c this) as [i this1]. cbn.
  now destruct (perform_inserts calls this1).
Qed.

(** Addresses the map has not seen get the next indices, one after the
    other. *)
Lemma perform_inserts_fresh calls :
  forall this,
    NoDup (List.map inserted_address calls) ->
    (forall a, In a (List.map inserted_address calls) ->
               JsMap.get (map this) a = None) ->
    fst (perform_inserts calls this) = seq (nextIndex this) (length calls).
Proof.
  induction calls as [|c calls IH]; intros this Hnd Hfresh; [reflexivity|].
  rewrite perform_inserts_cons. cbn [fst length seq List.map] in *.
  inversion Hnd as [|? ? Hnotin Hnd']; subst.
  destruct (perform_insert_config c this) as (s & w & ->).
  rewrite insertOrGetConfig_absent by (apply Hfresh; now left).
  cbn [fst snd]. f_equal.
  rewrite IH; cbn [nextIndex map].
  - f_equal. lia.
  - exact Hnd'.
  - intros a Ha.
    assert (Hne : inserted_address c <> a) by (intros <-; contradiction).
    etransitivity; [apply get_snoc_other; exact Hne|].
    apply Hfresh. now right.
Qed.

Lemma get_indices (m m' : JsMap.t PackedMeta) a :
  indices m = indices m' ->
  option_map fst (JsMap.get m a) = option_map fst (JsMap.get m' a).
Proof.
  revert m'. induction m as [|[k v] m IH]; intros [|[k' v'] m'] H;
    try discriminate; [reflexivity|].
  cbn in H. injection H as Hk Hv Hrest. subst k'. cbn.
  destruct (k =? a); [cbn; now f_equal | now apply IH].
Qed.

(** The indices returned depend on the addresses only: neither on the flags
    nor on the method used, nor on the other fields of the instance. *)
Lemma perform_inserts_indices calls :
  forall calls' this this',
    indices (map this) = indices (map this') ->
    nextIndex this = nextIndex this' ->
    List.map inserted_address calls = List.map inserted_address calls' ->
    fst (perform_inserts calls this) = fst (perform_inserts calls' this').
Proof.
  induction calls as [|c calls IH]; intros [|c' calls'] this this' Hm Hn Ha;
    try discriminate; [reflexivity|].
  cbn in Ha. injection Ha as Hc Hrest.
  rewrite !perform_inserts_cons. cbn [fst].
  destruct (perform_insert_config c this) as (s & w & ->).
  destruct (perform_insert_config c' this') as (s' & w' & ->).
  rewrite <- Hc. set (a := inserted_address c).
  pose proof (@get_indices (map this) (map this') a Hm) as Hget.
  destruct (JsMap.get (map this) a) as [e|] eqn:E;
    destruct (JsMap.get (map this') a) as [e'|] eqn:E'; try discriminate.
  - rewrite (insertOrGetConfig_present _ _ _ _ _ E),
            (insertOrGetConfig_present _ _ _ _ _ E').
    cbn in Hget. injection Hget as Hget. cbn [fst snd]. f_equal; [exact Hget|].
    now apply IH.
  - rewrite (insertOrGetConfig_absent _ _ _ _ E),
            (insertOrGetConfig_absent _ _ _ _ E').
    cbn [fst snd]. f_equal; [exact Hn|].
    apply IH; cbn [map nextIndex]; [|congruence|exact Hrest].
    unfold indices in *. rewrite !map_app, Hm, Hn. reflexivity.
Qed.

(** C2. N pairwise-distinct addresses inserted in order into a fresh
    PackedAccounts, through insertOrGet, insertOrGetReadOnly or
    insertOrGetConfig, get the indices 0, 1, ..., N-1 in that order; and the
    indices a sequence of insert calls returns are determined by the sequence
    (indeed by its addresses alone). *)
Theorem insert_distinct_indices
    (calls : list InsertCall) (pre sys : list AccountMeta) :
  NoDup (List.map inserted_address calls) ->
  fst (perform_inserts calls (mkPackedAccounts JsMap.empty 0 pre sys))
    = seq 0 (length calls)
  /\ forall (calls' : list InsertCall) (pre' sys' : list AccountMeta),
       List.map inserted_address calls' = List.map inserted_address calls ->
       fst (perform_inserts calls' (mkPackedAccounts JsMap.empty 0 pre' sys'))
       = fst (perform_inserts calls (mkPackedAccounts JsMap.empty 0 pre sys)).
Proof.
  intros Hnd. split.
  - now apply (perform_inserts_fresh calls (mkPackedAccounts JsMap.empty 0 pre sys)).
  - intros calls' pre' sys' Ha. now apply perform_inserts_indices.
Qed.

(** C2 at work: three addresses, one through each method. *)
Lemma insert_distinct_indices_witness :
  fst (perform_inserts
         [CallInsertOrGet "P"; CallInsertOrGetReadOnly "Q";
          CallInsertOrGetConfig "R" true false]
         (mkPackedAccounts JsMap.empty 0 [] []))
  = [0; 1; 2].
Proof.
  refine (proj1 (@insert_distinct_indices
            [CallInsertOrGet "P"; CallInsertOrGetReadOnly "Q";
             CallInsertOrGetConfig "R" true false] [] [] _)).
  cbn. repeat constructor; cbn; intuition discriminate.
Defined.

(** ** The final list *)

Lemma toAccountMetas_remainingAccounts this :
  remainingAccounts (fst (toAccountMetas this))
  = preAccounts this ++ systemAccounts this
      ++ List.map snd (sort byIndex (JsMap.values (map this))).
Proof. reflexivity. Qed.

(** C3. The list [toAccountMetas] returns is preAccounts, then
    systemAccounts, then the metas of the map entries sorted ascending by
    assigned index; with preAccounts [X], systemAccounts [Y, Z] and two
    insertions of fresh addresses P then Q it is [X, Y, Z, P, Q], with
    systemStart 1 and packedStart 3. *)
Theorem toAccountMetas_concatenation
    (this : PackedAccounts) (X Y Z : AccountMeta) (P Q : Address) :
  P <> Q ->
  (exists packed,
      Permutation packed (JsMap.values (map this))
      /\ StronglySorted index_le packed
      /\ remainingAccounts (fst (toAccountMetas this))
         = preAccounts this ++ systemAccounts this ++ List.map snd packed)
  /\ (let this0 := mkPackedAccounts JsMap.empty 0 [X] [Y; Z] in
      fst (toAccountMetas
             (snd (insertOrGetReadOnly Q (snd (insertOrGetReadOnly P this0)))))
      = {| packedStart := 3;
           remainingAccounts := [X; Y; Z; mkMeta P READONLY; mkMeta Q READONLY];
           systemStart := 1 |}
      /\ forall c1 c2,
           inserted_address c1 = P -> inserted_address c2 = Q ->
           let r := fst (toAccountMetas (snd (perform_inserts [c1; c2] this0))) in
           List.map address (remainingAccounts r)
             = [address X; address Y; address Z; P; Q]
           /\ systemStart r = 1 /\ packedStart r = 3).
Proof.
  intros Hne. split.
  - exists (sort byIndex (JsMap.values (map this))).
    split; [apply sort_perm|]. split; [apply sort_sorted | reflexivity].
  - cbn zeta. split.
    + unfold insertOrGetReadOnly, insertOrGetConfig. cbn.
      destruct (String.eqb_spec P Q); [contradiction|]. reflexivity.
    + intros c1 c2 H1 H2.
      destruct c1 as [a1|a1|a1 s1 w1], c2 as [a2|a2|a2 s2 w2]; cbn in H1, H2;
        subst a1 a2; cbn;
        unfold insertOrGet, insertOrGetReadOnly, insertOrGetConfig; cbn;
        destruct (String.eqb_spec P Q); try contradiction; cbn; auto.
Qed.

(** C3 at work. *)
Lemma toAccountMetas_concatenation_witness :
  fst (toAccountMetas
         (snd (insertOrGetReadOnly "Q"
                 (snd (insertOrGetReadOnly "P"
                         (mkPackedAccounts JsMap.empty 0
                            [mkMeta "X" WRITABLE_SIGNER]
                            [mkMeta "Y" READONLY; mkMeta "Z" READONLY]))))))
  = {| packedStart := 3;
       remainingAccounts :=
         [mkMeta "X" WRITABLE_SIGNER; mkMeta "Y" READONLY; mkMeta "Z" READONLY;
          mkMeta "P" READONLY; mkMeta "Q" READONLY];
       systemStart := 1 |}.
Proof.
  refine (proj1 (proj2 (toAccountMetas_concatenation new_PackedAccounts
            (mkMeta "X" WRITABLE_SIGNER) (mkMeta "Y" READONLY)
            (mkMeta "Z" READONLY) "P" "Q" _))).
  discriminate.
Defined.

(** C4. [systemStart] is the length of preAccounts and
    [packedStart - systemStart] the length of systemAccounts; the packed
    segment has as many entries as the map, so with an empty map
    [packedStart] is the length of the returned list. *)
Theorem toAccountMetas_offsets (this : PackedAccounts) :
  let r := fst (toAccountMetas this) in
  systemStart r = length (preAccounts this)
  /\ packedStart r - systemStart r = length (systemAccounts this)
  /\ packedStart r = systemStart r + length (systemAccounts this)
  /\ length (remainingAccounts r) = packedStart r + JsMap.size (map this)
  /\ (map this = JsMap.empty ->
      packedStart r = length (remainingAccounts r)
      /\ skipn (packedStart r) (remainingAccounts r) = []).
Proof.
  cbn. repeat split.
  - lia.
  - rewrite !length_app, length_map, sort_length.
    unfold JsMap.values, JsMap.size. rewrite length_map. lia.
  - rewrite H. cbn. rewrite !length_app. cbn. lia.
  - rewrite H. cbn. rewrite app_nil_r, <- length_app. apply skipn_all.
Qed.

(** C4 at work: a fresh instance with one pre-account. *)
Lemma toAccountMetas_offsets_witness :
  let r := fst (toAccountMetas (addPreAccountsSigner "S" new_PackedAccounts)) in
  packedStart r = length (remainingAccounts r)
  /\ skipn (packedStart r) (remainingAccounts r) = [].
Proof.
  refine (proj2 (proj2 (proj2 (proj2
    (toAccountMetas_offsets (addPreAccountsSigner "S" new_PackedAccounts))))) _).
  reflexivity.
Defined.

(** ** Reachable instances *)

Lemma well_indexed_new : well_indexed new_PackedAccounts.
Proof. split; reflexivity. Qed.

Lemma well_indexed_insertOrGetConfig a s w this :
  well_indexed this -> well_indexed (snd (insertOrGetConfig a s w this)).
Proof.
  intros [Hidx Hnext].
  destruct (JsMap.get (map this) a) as [e|] eqn:E.
  - rewrite (insertOrGetConfig_present _ _ _ _ _ E). now split.
  - rewrite (insertOrGetConfig_absent _ _ _ _ E). cbn [snd].
    unfold well_indexed, JsMap.values, JsMap.size in *. cbn [map nextIndex].
    rewrite !map_app, length_app. cbn [List.map length fst snd].
    rewrite Hidx, Hnext, Nat.add_1_r, seq_S. split; reflexivity.
Qed.

Section ReachableFacts.

Variable derive : Address -> list string -> result (Address * nat).

Lemma perform_map_insert c this :
  (exists a s w, c = CallInsert (CallInsertOrGetConfig a s w)
                 \/ (s = false /\ w = true /\ c = CallInsert (CallInsertOrGet a))
                 \/ (s = false /\ w = false
                     /\ c = CallInsert (CallInsertOrGetReadOnly a)))
  \/ (map (perform derive c this) = map this
      /\ nextIndex (perform derive c this) = nextIndex this).
Proof.
  destruct c as [m|a|a|config lsc|[a|a|a s w]|].
  - right. now split.
  - right. now split.
  - right. now split.
  - right. cbn. unfold addSystemAccountsV2.
    destruct (getLightSystemAccountMetasV2 derive config lsc); now split.
  - left. exists a, false, true. right. left. auto.
  - left. exists a, false, false. right. right. auto.
  - left. exists a, s, w. now left.
  - right. now split.
Qed.

Lemma well_indexed_perform c this :
  well_indexed this -> well_indexed (perform derive c this).
Proof.
  intros Hwi.
  destruct (perform_map_insert c this)
    as [(a & s & w & [->|[(-> & -> & ->)|(-> & -> & ->)]])|[Hm Hn]];
    try (now apply well_indexed_insertOrGetConfig).
  unfold well_indexed in *. now rewrite Hm, Hn.
Qed.

Lemma reachable_well_indexed this : reachable derive this -> well_indexed this.
Proof.
  induction 1 as [|c this _ IH];
    [apply well_indexed_new | now apply well_indexed_perform].
Qed.

(** A call never touches an entry that is already there. *)
Lemma perform_keeps_entry c this a e :
  JsMap.get (map this) a = Some e ->
  JsMap.get (map (perform derive c this)) a = Some e.
Proof.
  intros Ha.
  assert (Hins : forall b s w,
    JsMap.get (map (snd (insertOrGetConfig b s w this))) a = Some e).
  { intros b s w. destruct (JsMap.get (map this) b) as [e'|] eqn:E.
    - now rewrite (insertOrGetConfig_present _ _ _ _ _ E).
    - rewrite (insertOrGetConfig_absent _ _ _ _ E). cbn [snd map].
      etransitivity; [apply get_snoc_other|exact Ha]. congruence. }
  destruct (perform_map_insert c this)
    as [(b & s & w & [->|[(-> & -> & ->)|(-> & -> & ->)]])|[Hm _]];
    try apply Hins.
  now rewrite Hm.
Qed.

Lemma perform_all_keeps_entry calls :
  forall this a e,
    JsMap.get (map this) a = Some e ->
    JsMap.get (map (perform_all derive calls this)) a = Some e.
Proof.
  induction calls as [|c calls IH]; intros this a e Ha; [exact Ha|].
  cbn. apply IH. now apply perform_keeps_entry.
Qed.

End ReachableFacts.

(** In a well-indexed map, the entry with index [k] is the [k]-th. *)
Lemma well_indexed_position this a k meta :
  well_indexed this ->
  JsMap.get (map this) a = Some (k, meta) ->
  nth_error (JsMap.values (map this)) k = Some (k, meta)
  /\ k < JsMap.size (map this).
Proof.
  intros [Hidx _] Hget.
  destruct (In_nth_error _ _ (get_Some_In _ _ _ _ Hget)) as [i Hi].
  assert (Hv : nth_error (JsMap.values (map this)) i = Some (k, meta)).
  { unfold JsMap.values. now rewrite nth_error_map, Hi. }
  assert (Hk : nth_error (List.map fst (JsMap.values (map this))) i = Some k).
  { now rewrite nth_error_map, Hv. }
  rewrite Hidx, nth_error_seq in Hk.
  destruct (Nat.ltb_spec i (JsMap.size (map this))); [|discriminate].
  injection Hk as <-. now split.
Qed.

(** C5. In every reachable PackedAccounts state, the meta recorded for an
    address with assigned index k is at position packedStart + k of the list
    [toAccountMetas] returns; the indices handed out are exactly
    0, ..., size-1. *)
Theorem packed_index_position
    (derive : Address -> list string -> result (Address * nat))
    (this : PackedAccounts) (a : Address) (k : nat) (meta : AccountMeta) :
  reachable derive this ->
  JsMap.get (map this) a = Some (k, meta) ->
  let r := fst (toAccountMetas this) in
  nth_error (remainingAccounts r) (packedStart r + k) = Some meta
  /\ List.map fst (JsMap.values (map this)) = seq 0 (JsMap.size (map this))
  /\ k < JsMap.size (map this).
Proof.
  intros Hreach Hget r.
  pose proof (reachable_well_indexed derive this Hreach) as Hwi.
  destruct (well_indexed_position this a k meta Hwi Hget) as [Hnth Hlt].
  destruct Hwi as [Hidx Hnext]. split; [|now split].
  subst r. rewrite toAccountMetas_remainingAccounts. cbn [packedStart fst toAccountMetas].
  rewrite (sort_counting _ 0)
    by (rewrite Hidx; unfold JsMap.size, JsMap.values; now rewrite length_map).
  rewrite app_assoc, nth_error_app2 by (rewrite length_app; lia).
  rewrite length_app.
  replace (_ + _ + k - _) with k by lia.
  now rewrite nth_error_map, Hnth.
Qed.

(** C5 at work: after a signer, [P] and [Q], the address [Q] has index 1 and
    sits at position 2. *)
Lemma packed_index_position_witness :
  let this :=
    perform_all (fun p _ => Ok (p, 255))
      [CallAddPreAccountsSigner "S"; CallInsert (CallInsertOrGet "P");
       CallInsert (CallInsertOrGetReadOnly "Q")] new_PackedAccounts in
  nth_error (remainingAccounts (fst (toAccountMetas this))) (1 + 1)
  = Some (mkMeta "Q" READONLY).
Proof.
  refine (proj1 (packed_index_position (fun p _ => Ok (p, 255)) _ "Q" 1
                   (mkMeta "Q" READONLY) _ _)).
  - repeat apply reachable_perform. apply reachable_new.
  - reflexivity.
Defined.

(** ** Inserting again *)

(** C6. A second [insertOrGetConfig] (or [insertOrGet]) of the same address,
    with whatever flags, returns the index the first returned, and the map
    does not grow. *)
Theorem insert_twice_same_index
    (a : Address) (s1 w1 s2 w2 : bool) (this : PackedAccounts) :
  (let first := insertOrGetConfig a s1 w1 this in
   let second := insertOrGetConfig a s2 w2 (snd first) in
   fst second = fst first
   /\ JsMap.size (map (snd second)) = JsMap.size (map (snd first))
   /\ snd second = snd first)
  /\ (let first := insertOrGet a this in
      let second := insertOrGet a (snd first) in
      fst second = fst first
      /\ JsMap.size (map (snd second)) = JsMap.size (map (snd first))).
Proof.
  assert (H : forall s1 w1 s2 w2,
    insertOrGetConfig a s2 w2 (snd (insertOrGetConfig a s1 w1 this))
    = (fst (insertOrGetConfig a s1 w1 this),
       snd (insertOrGetConfig a s1 w1 this))).
  { intros s w s' w'. destruct (JsMap.get (map this) a) as [e|] eqn:E.
    - rewrite (insertOrGetConfig_present _ _ _ _ _ E). cbn [fst snd].
      apply (insertOrGetConfig_present _ _ _ _ _ E).
    - rewrite (insertOrGetConfig_absent _ _ _ _ E). cbn [fst snd].
      rewrite (insertOrGetConfig_present a s' w' _
                 (nextIndex this, mkMeta a (AccountIndexContract.accessRole s w)))
        by (cbn [map]; now apply get_snoc_same).
      reflexivity. }
  split; cbn zeta; unfold insertOrGet; rewrite H; cbn [fst snd]; auto.
Qed.

(** C7. Once an address is in the map, [insertOrGetConfig] for it, with any
    flags, returns its index and changes nothing; no later call of any method
    changes its entry: the index and the role of the first insertion stay. *)
Theorem existing_entry_unchanged
    (a : Address) (existing : PackedMeta) (this : PackedAccounts) :
  JsMap.get (map this) a = Some existing ->
  (forall s w, insertOrGetConfig a s w this = (fst existing, this))
  /\ (forall s w,
        JsMap.get (map (snd (insertOrGetConfig a s w this))) a = Some existing)
  /\ (forall derive calls,
        JsMap.get (map (perform_all derive calls this)) a = Some existing).
Proof.
  intros Ha. split; [|split].
  - intros s w. now apply insertOrGetConfig_present.
  - intros s w. now rewrite (insertOrGetConfig_present _ _ _ _ _ Ha).
  - intros derive calls. now apply perform_all_keeps_entry.
Qed.

(** C7 at work: [P] inserted read-only, then asked for as a writable signer. *)
Lemma existing_entry_unchanged_witness :
  let this := snd (insertOrGetReadOnly "P" new_PackedAccounts) in
  JsMap.get (map (snd (insertOrGetConfig "P" true true this))) "P"
  = Some (0, mkMeta "P" READONLY).
Proof.
  refine (proj1 (proj2 (existing_entry_unchanged "P" (0, mkMeta "P" READONLY)
                          _ _)) true true).
  reflexivity.
Defined.

(** The role recorded is that of the first insertion. *)
Lemma first_insertion_wins a s1 w1 s2 w2 this :
  JsMap.get (map this) a = None ->
  JsMap.get
    (map (snd (insertOrGetConfig a s2 w2 (snd (insertOrGetConfig a s1 w1 this)))))
    a
  = Some (nextIndex this, mkMeta a (AccountIndexContract.accessRole s1 w1)).
Proof.
  intros Ha. rewrite (insertOrGetConfig_absent _ s1 w1 _ Ha). cbn [snd].
  rewrite (insertOrGetConfig_present a s2 w2 _
             (nextIndex this, mkMeta a (AccountIndexContract.accessRole s1 w1)))
    by (cbn [map]; now apply get_snoc_same).
  cbn [map snd]. now apply get_snoc_same.
Qed.

(** The repository's test 'inserts accounts once and tracks offsets'. *)
Example inserts_once_and_tracks_offsets :
  let selfProgram := DEFAULT_SYSTEM_PROGRAM_ADDRESS in
  let lightSystemProgram := "SySTEM1eSU2p4BGQfQpimFEWWSC1XDFeun3Nqzz3rT7" in
  exists packedAccounts,
    newWithSystemAccountsV2 (fun p _ => Ok ("pda:" ++ p, 255)%string)
      (SystemAccountMetaConfig_static.new selfProgram)
      (mkLightSystemConfig None None lightSystemProgram None)
    = Ok packedAccounts
    /\ let (mutableIndex, this1) := insertOrGet selfProgram packedAccounts in
       let (duplicateIndex, this2) := insertOrGet selfProgram this1 in
       let (readonlyIndex, this3) := insertOrGetReadOnly lightSystemProgram this2 in
       let metas := fst (toAccountMetas this3) in
       mutableIndex = 0 /\ duplicateIndex = 0 /\ readonlyIndex = 1
       /\ systemStart metas = 0 /\ packedStart metas = 6
       /\ length (remainingAccounts metas) = packedStart metas + 2.
Proof. eexists. split; [reflexivity|]. cbn. repeat split. Qed.

(** ** Reading without writing *)

(** C8. [toAccountMetas] leaves the instance as it found it (map, nextIndex,
    preAccounts and systemAccounts), and a second call right after the first
    returns the same value. *)
Theorem toAccountMetas_no_mutation (this : PackedAccounts) :
  let after := snd (toAccountMetas this) in
  after = this
  /\ map after = map this
  /\ nextIndex after = nextIndex this
  /\ preAccounts after = preAccounts this
  /\ systemAccounts after = systemAccounts this
  /\ fst (toAccountMetas after) = fst (toAccountMetas this).
Proof.
  unfold toAccountMetas. cbn [snd fst]. repeat split; reflexivity.
Qed.

(** ** The two shorthands *)

Lemma insertOrGetConfig_contract a s w this :
  insertOrGetConfig a s w this
  = AccountIndexContract.insertOrGet a (Some s) (Some w) this.
Proof.
  unfold insertOrGetConfig, AccountIndexContract.insertOrGet, nullish_or.
  destruct (JsMap.get (map this) a); [reflexivity|].
  cbn. rewrite Nat.add_1_r. now destruct s, w.
Qed.

(** C9. [insertOrGetReadOnly a] is [insertOrGetConfig a false false] and
    [insertOrGet a] is [insertOrGetConfig a false true]: same index, same
    resulting instance.  These are the contract's [insertOrGetReadOnly] and
    its [insertOrGet] at the defaults isSigner = false, isWritable = true. *)
Theorem insert_shorthands (a : Address) (this : PackedAccounts) :
  insertOrGetReadOnly a this = insertOrGetConfig a false false this
  /\ insertOrGet a this = insertOrGetConfig a false true this
  /\ insertOrGetReadOnly a this = AccountIndexContract.insertOrGetReadOnly a this
  /\ insertOrGet a this = AccountIndexContract.insertOrGet a None None this
  /\ (forall s w,
        insertOrGetConfig a s w this
        = AccountIndexContract.insertOrGet a (Some s) (Some w) this).
Proof.
  split; [reflexivity|]. split; [reflexivity|].
  split; [apply insertOrGetConfig_contract|].
  split; [apply (insertOrGetConfig_contract a false true)|].
  intros s w. apply insertOrGetConfig_contract.
Qed.

(** ** Building and signing *)

Section TransactionFacts.

Variables TransactionSigner TransactionMessage Transaction : Type.
Variable create : Version -> TransactionMessage.
Variable setFeePayer : TransactionSigner -> TransactionMessage -> TransactionMessage.
Variable setLifetime :
  BlockhashLifetimeConstraint -> TransactionMessage -> TransactionMessage.
Variable append : list Instruction -> TransactionMessage -> TransactionMessage.
Variable sign : TransactionMessage -> result Transaction.

(** Without latestBlockhash the rpc, when there is one, is asked first; if it
    rejects, nothing is built. *)
Lemma buildAndSignTransaction_rpc_rejects feePayer instructions version e log :
  buildAndSignTransaction create setFeePayer setLifetime append sign
    (mkBuildInput feePayer instructions None (Some (mkRpc (Throw e))) version) log
  = (Throw e, log ++ [RpcGetLatestBlockhash TransactionSigner TransactionMessage]).
Proof. reflexivity. Qed.

(** Without latestBlockhash the blockhash the rpc answers is the one used,
    wrapped in [value] or not. *)
Lemma buildAndSignTransaction_rpc_answers
    feePayer instructions version response log :
  let v := nullish_or version V0 in
  let answered := normalizeBlockhashLifetimeConstraint response in
  let message :=
    append instructions (setLifetime answered (setFeePayer feePayer (create v))) in
  buildAndSignTransaction create setFeePayer setLifetime append sign
    (mkBuildInput feePayer instructions None (Some (mkRpc (Ok response))) version)
    log
  = (sign message,
     log ++ [ RpcGetLatestBlockhash _ _;
              CreateTransactionMessage _ _ v;
              SetFeePayerSigner _ feePayer;
              SetLifetimeUsingBlockhash _ _ answered;
              AppendInstructions _ _ instructions;
              SignWithSigners _ message ]).
Proof.
  cbn zeta.
  unfold buildAndSignTransaction, resolveLatestBlockhash, io_bind, io_call,
    io_ret. cbn.
  rewrite <- !app_assoc. cbn. now destruct (sign _).
Qed.

End TransactionFacts.

(** C10. With neither latestBlockhash nor rpc, [buildAndSignTransaction]
    throws 'latestBlockhash is required when rpc is not provided.' and has
    made no outside call: no message was created or signed.  With
    latestBlockhash given, whatever rpc is, the calls made are the five that
    build and sign the message, none of them to rpc, and the lifetime set is
    the given blockhash. *)
Theorem buildAndSignTransaction_blockhash
    (TransactionSigner TransactionMessage Transaction : Type)
    (create : Version -> TransactionMessage)
    (setFeePayer : TransactionSigner -> TransactionMessage -> TransactionMessage)
    (setLifetime : BlockhashLifetimeConstraint -> TransactionMessage
                   -> TransactionMessage)
    (append : list Instruction -> TransactionMessage -> TransactionMessage)
    (sign : TransactionMessage -> result Transaction)
    (feePayer : TransactionSigner) (instructions : list Instruction)
    (version : option Version) (log : list (Event TransactionSigner TransactionMessage)) :
  let build := buildAndSignTransaction create setFeePayer setLifetime append sign in
  build (mkBuildInput feePayer instructions None None version) log
    = (Throw "latestBlockhash is required when rpc is not provided.", log)
  /\ forall (given : BlockhashLifetimeConstraint)
            (rpc : option GetLatestBlockhashApi),
       let v := match version with Some v => v | None => V0 end in
       let message :=
         append instructions (setLifetime given (setFeePayer feePayer (create v))) in
       let calls :=
         [ CreateTransactionMessage _ _ v;
           SetFeePayerSigner _ feePayer;
           SetLifetimeUsingBlockhash _ _ given;
           AppendInstructions _ _ instructions;
           SignWithSigners _ message ] in
       build (mkBuildInput feePayer instructions (Some given) rpc version) log
         = (sign message, log ++ calls)
       /\ forallb (fun e => negb (consults_rpc e)) calls = true.
Proof.
  cbn zeta. split; [reflexivity|].
  intros given rpc. split; [|reflexivity].
  unfold buildAndSignTransaction, resolveLatestBlockhash, io_bind, io_call,
    io_ret. cbn.
  rewrite <- !app_assoc. cbn. now destruct (sign _).
Qed.

(** * Further properties *)

(** ** The resolver: shape, failures, edge cases *)

Lemma getLightSystemAccountMetasV2_Ok derive config opts metas :
  getLightSystemAccountMetasV2 derive config opts = Ok metas ->
  exists cpiSigner authority,
    metas =
      [ mkMeta (lightSystemProgram opts) READONLY;
        mkMeta cpiSigner READONLY;
        mkMeta (nullish_or (registeredProgramPda opts)
                  DEFAULT_REGISTERED_PROGRAM_PDA_ADDRESS) READONLY;
        mkMeta authority READONLY;
        mkMeta (nullish_or (accountCompressionProgram opts)
                  DEFAULT_ACCOUNT_COMPRESSION_PROGRAM_ADDRESS) READONLY;
        mkMeta DEFAULT_SYSTEM_PROGRAM_ADDRESS READONLY ]
      ++ (if truthy (solPoolPda config)
          then [mkMeta (nullish_or (solPoolPda config) "") WRITABLE] else [])
      ++ (if truthy (solCompressionRecipient config)
          then [mkMeta (nullish_or (solCompressionRecipient config) "") WRITABLE]
          else [])
      ++ (if truthy (cpiContext config)
          then [mkMeta (nullish_or (cpiContext config) "") WRITABLE] else []).
Proof.
  unfold getLightSystemAccountMetasV2, deriveAccountCompressionAuthority.
  destruct (derive (selfProgram config) _) as [[cpiSigner bump]|e]; cbn;
    [|discriminate].
  destruct (accountCompressionAuthority opts) as [override|]; cbn.
  - intros H. injection H as <-. exists cpiSigner, override. unfold push.
    destruct (truthy (solPoolPda config)),
             (truthy (solCompressionRecipient config)),
             (truthy (cpiContext config)); reflexivity.
  - destruct (derive (lightSystemProgram opts) _) as [[authority bump']|e];
      cbn; [|discriminate].
    intros H. injection H as <-. exists cpiSigner, authority. unfold push.
    destruct (truthy (solPoolPda config)),
             (truthy (solCompressionRecipient config)),
             (truthy (cpiContext config)); reflexivity.
Qed.

Lemma getLightSystemAccountMetasV2_length derive config opts metas :
  getLightSystemAccountMetasV2 derive config opts = Ok metas ->
  6 <= length metas <= 9.
Proof.
  intros H. destruct (getLightSystemAccountMetasV2_Ok _ _ _ _ H) as (c & a & ->).
  destruct (truthy (solPoolPda config)),
           (truthy (solCompressionRecipient config)),
           (truthy (cpiContext config)); cbn; lia.
Qed.

(** X1. A list returned by [getLightSystemAccountMetasV2] has six entries plus
    one for each optional field that is set: between 6 and 9.  The first six
    are read-only, the others writable, and no entry is a signer. *)
Theorem getLightSystemAccountMetasV2_shape
    (derive : Address -> list string -> result (Address * nat))
    (config : SystemAccountMetaConfig) (opts : LightSystemConfig)
    (metas : list AccountMeta) :
  getLightSystemAccountMetasV2 derive config opts = Ok metas ->
  length metas
    = 6 + (if truthy (solPoolPda config) then 1 else 0)
        + (if truthy (solCompressionRecipient config) then 1 else 0)
        + (if truthy (cpiContext config) then 1 else 0)
  /\ 6 <= length metas <= 9
  /\ Forall (fun m => role m = READONLY) (firstn 6 metas)
  /\ Forall (fun m => role m = WRITABLE) (skipn 6 metas)
  /\ Forall (fun m => role m <> READONLY_SIGNER /\ role m <> WRITABLE_SIGNER)
       metas.
Proof.
  intros H. destruct (getLightSystemAccountMetasV2_Ok _ _ _ _ H) as (c & a & ->).
  destruct (truthy (solPoolPda config)),
           (truthy (solCompressionRecipient config)),
           (truthy (cpiContext config)); cbn;
    repeat split; try lia; repeat constructor; cbn; discriminate.
Qed.

(** X1 at work: only the context account is set. *)
Lemma getLightSystemAccountMetasV2_shape_witness :
  length [ mkMeta "B" READONLY; mkMeta "pda:A" READONLY;
           mkMeta DEFAULT_REGISTERED_PROGRAM_PDA_ADDRESS READONLY;
           mkMeta "pda:B" READONLY;
           mkMeta DEFAULT_ACCOUNT_COMPRESSION_PROGRAM_ADDRESS READONLY;
           mkMeta DEFAULT_SYSTEM_PROGRAM_ADDRESS READONLY;
           mkMeta "ctx" WRITABLE ] = 7.
Proof.
  refine (proj1 (getLightSystemAccountMetasV2_shape
            (fun p _ => Ok ("pda:" ++ p, 255)%string)
            (SystemAccountMetaConfig_static.newWithCpiContext "A" "ctx")
            (mkLightSystemConfig None None "B" None) _ _)).
  reflexivity.
Defined.

(** X2. The only failures of [getLightSystemAccountMetasV2] are those of the
    address derivation: that of the signer first, then, when no compression
    authority is passed in, that of the authority. *)
Theorem getLightSystemAccountMetasV2_rejects
    (derive : Address -> list string -> result (Address * nat))
    (config : SystemAccountMetaConfig) (opts : LightSystemConfig) (e : string) :
  getLightSystemAccountMetasV2 derive config opts = Throw e
  <-> derive (selfProgram config) [CPI_AUTHORITY_SEED] = Throw e
      \/ ((exists pda, derive (selfProgram config) [CPI_AUTHORITY_SEED] = Ok pda)
          /\ accountCompressionAuthority opts = None
          /\ derive (lightSystemProgram opts) [CPI_AUTHORITY_SEED] = Throw e).
Proof.
  unfold getLightSystemAccountMetasV2, deriveAccountCompressionAuthority.
  destruct (derive (selfProgram config) _) as [pda|e1]; cbn.
  - destruct (accountCompressionAuthority opts) as [override|]; cbn.
    + split; [discriminate|].
      intros [H|(_ & H & _)]; discriminate.
    + destruct (derive (lightSystemProgram opts) _) as [pda'|e2]; cbn.
      * split; [discriminate|]. intros [H|(_ & _ & H)]; discriminate.
      * split.
        -- intros H. injection H as ->. right.
           split; [now exists pda|]. now split.
        -- intros [H|(_ & _ & H)]; [discriminate|]. now injection H as ->.
  - split.
    + intros H. injection H as ->. now left.
    + intros [H|((pda & H) & _)]; [|discriminate]. now injection H as ->.
Qed.

(** X3. The result depends on the derivation at two places only: at
    config.selfProgram, and, when no compression authority is passed in, at
    the light system program, both with the seed CPI_AUTHORITY_SEED. *)
Theorem getLightSystemAccountMetasV2_consults
    (derive derive' : Address -> list string -> result (Address * nat))
    (config : SystemAccountMetaConfig) (opts : LightSystemConfig) :
  derive (selfProgram config) [CPI_AUTHORITY_SEED]
    = derive' (selfProgram config) [CPI_AUTHORITY_SEED] ->
  (accountCompressionAuthority opts = None ->
   derive (lightSystemProgram opts) [CPI_AUTHORITY_SEED]
     = derive' (lightSystemProgram opts) [CPI_AUTHORITY_SEED]) ->
  getLightSystemAccountMetasV2 derive config opts
    = getLightSystemAccountMetasV2 derive' config opts.
Proof.
  intros Hs Ha.
  unfold getLightSystemAccountMetasV2, deriveAccountCompressionAuthority.
  rewrite Hs. destruct (accountCompressionAuthority opts); [reflexivity|].
  now rewrite Ha.
Qed.

(** X3 at work: with an authority passed in, a derivation that rejects
    everywhere but at the self program does as well as one that never
    rejects. *)
Lemma getLightSystemAccountMetasV2_consults_witness :
  getLightSystemAccountMetasV2 (fun p _ => Ok ("pda:" ++ p, 255)%string)
    (SystemAccountMetaConfig_static.new "A")
    (mkLightSystemConfig (Some "authority") None "B" None)
  = getLightSystemAccountMetasV2
      (fun p _ => if p =? "A" then Ok ("pda:A", 255) else Throw "no bump")
      (SystemAccountMetaConfig_static.new "A")
      (mkLightSystemConfig (Some "authority") None "B" None).
Proof.
  refine (getLightSystemAccountMetasV2_consults _ _ _ _ _ _).
  - reflexivity.
  - discriminate.
Defined.

(** X4. An optional account of the config that is the empty string is
    treated as not set: it adds no entry. *)
Theorem getLightSystemAccountMetasV2_empty_address
    (derive : Address -> list string -> result (Address * nat))
    (self : Address) (context recipient pool : option Address)
    (opts : LightSystemConfig) :
  getLightSystemAccountMetasV2 derive (mkConfig context self recipient pool) opts
  = getLightSystemAccountMetasV2 derive
      (mkConfig (blank context) self (blank recipient) (blank pool)) opts
  /\ blank (Some "") = None
  /\ forall a, a <> "" -> blank (Some a) = Some a.
Proof.
  split; [|split].
  - unfold getLightSystemAccountMetasV2, blank. cbn.
    destruct (truthy pool) eqn:Ep, (truthy recipient) eqn:Er,
             (truthy context) eqn:Ec; cbn [truthy];
      rewrite ?Ep, ?Er, ?Ec; reflexivity.
  - reflexivity.
  - intros a Ha. unfold blank. now rewrite truthy_Some.
Qed.

(** ** Packed accounts: what reachable instances look like *)

Lemma well_keyed_new : well_keyed new_PackedAccounts.
Proof. split; constructor. Qed.

Lemma well_keyed_insertOrGetConfig a s w this :
  well_keyed this -> well_keyed (snd (insertOrGetConfig a s w this)).
Proof.
  intros [Hnd Hkeys].
  destruct (JsMap.get (map this) a) as [e|] eqn:E.
  - rewrite (insertOrGetConfig_present _ _ _ _ _ E). now split.
  - rewrite (insertOrGetConfig_absent _ _ _ _ E). cbn [snd].
    unfold well_keyed, JsMap.keys in *. cbn [map]. split.
    + rewrite map_app. cbn. apply NoDup_app; [exact Hnd | | ].
      * repeat constructor. intros [].
      * intros k Hk [<-|[]]. apply get_None_iff in E. now apply E.
    + apply Forall_app. split; [exact Hkeys|]. repeat constructor.
Qed.

(** In a well-indexed map the entry of index [k] is the [k]-th, key
    included. *)
Lemma well_indexed_entry this a k meta :
  well_indexed this ->
  JsMap.get (map this) a = Some (k, meta) ->
  nth_error (map this) k = Some (a, (k, meta)).
Proof.
  intros [Hidx _] Hget.
  destruct (In_nth_error _ _ (get_Some_In _ _ _ _ Hget)) as [i Hi].
  assert (Hk : nth_error (List.map fst (JsMap.values (map this))) i = Some k).
  { unfold JsMap.values. now rewrite !nth_error_map, Hi. }
  rewrite Hidx, nth_error_seq in Hk.
  destruct (Nat.ltb_spec i (JsMap.size (map this))); [|discriminate].
  injection Hk as <-. exact Hi.
Qed.

(** The packed segment of a well-indexed instance is its map, in insertion
    order. *)
Lemma well_indexed_packed_segment this :
  well_indexed this ->
  remainingAccounts (fst (toAccountMetas this))
  = preAccounts this ++ systemAccounts this
      ++ List.map snd (JsMap.values (map this)).
Proof.
  intros [Hidx _]. rewrite toAccountMetas_remainingAccounts.
  rewrite (sort_counting _ 0); [reflexivity|].
  rewrite Hidx. unfold JsMap.size, JsMap.values. now rewrite length_map.
Qed.

Lemma well_indexed_nth this a k meta :
  well_indexed this ->
  JsMap.get (map this) a = Some (k, meta) ->
  nth_error (remainingAccounts (fst (toAccountMetas this)))
    (packedStart (fst (toAccountMetas this)) + k) = Some meta.
Proof.
  intros Hwi Hget. rewrite (well_indexed_packed_segment _ Hwi).
  cbn [packedStart fst toAccountMetas].
  rewrite app_assoc, nth_error_app2 by (rewrite length_app; lia).
  rewrite length_app. replace (_ + _ + k - _) with k by lia.
  unfold JsMap.values.
  now rewrite !nth_error_map, (well_indexed_entry _ _ _ _ Hwi Hget).
Qed.

Section MoreReachableFacts.

Variable derive : Address -> list string -> result (Address * nat).

Lemma well_keyed_perform c this :
  well_keyed this -> well_keyed (perform derive c this).
Proof.
  intros Hwk.
  destruct (perform_map_insert derive c this)
    as [(a & s & w & [->|[(-> & -> & ->)|(-> & -> & ->)]])|[Hm Hn]];
    try (now apply well_keyed_insertOrGetConfig).
  unfold well_keyed in *. now rewrite Hm.
Qed.

Lemma reachable_well_keyed this : reachable derive this -> well_keyed this.
Proof.
  induction 1 as [|c this _ IH];
    [apply well_keyed_new | now apply well_keyed_perform].
Qed.

Lemma reachable_perform_all calls :
  forall this, reachable derive this -> reachable derive (perform_all derive calls this).
Proof.
  induction calls as [|c calls IH]; intros this H; [exact H|].
  cbn. apply IH. now constructor.
Qed.

Lemma reachable_insertOrGetConfig a s w this :
  reachable derive this -> reachable derive (snd (insertOrGetConfig a s w this)).
Proof.
  intros H.
  exact (@reachable_perform derive (CallInsert (CallInsertOrGetConfig a s w)) this H).
Qed.

Lemma reachable_perform_insert c this :
  reachable derive this -> reachable derive (snd (perform_insert c this)).
Proof. intros H. exact (@reachable_perform derive (CallInsert c) this H). Qed.

End MoreReachableFacts.

(** The entry an insert leaves for its address. *)
Lemma insertOrGetConfig_entry a s w this :
  exists meta,
    JsMap.get (map (snd (insertOrGetConfig a s w this))) a
      = Some (fst (insertOrGetConfig a s w this), meta)
    /\ (JsMap.get (map this) a = None ->
        meta = mkMeta a (if s then if w then WRITABLE_SIGNER else READONLY_SIGNER
                         else if w then WRITABLE else READONLY)).
Proof.
  destruct (JsMap.get (map this) a) as [[i meta]|] eqn:E.
  - rewrite (insertOrGetConfig_present _ _ _ _ _ E). cbn [fst snd].
    exists meta. split; [exact E | discriminate].
  - rewrite (insertOrGetConfig_absent _ _ _ _ E). cbn [fst snd map].
    eexists. split; [now apply get_snoc_same|].
    intros _. now destruct s, w.
Qed.

(** X5. In every reachable instance the packed segment of the final list
    holds the addresses of the map in the order of their first insertion,
    each once, and has [nextIndex] entries. *)
Theorem packed_segment_addresses
    (derive : Address -> list string -> result (Address * nat))
    (this : PackedAccounts) :
  reachable derive this ->
  let r := fst (toAccountMetas this) in
  List.map address (skipn (packedStart r) (remainingAccounts r))
    = JsMap.keys (map this)
  /\ NoDup (List.map address (skipn (packedStart r) (remainingAccounts r)))
  /\ length (skipn (packedStart r) (remainingAccounts r)) = nextIndex this.
Proof.
  intros Hreach r.
  pose proof (reachable_well_indexed derive this Hreach) as Hwi.
  destruct (reachable_well_keyed derive this Hreach) as [Hnd Hkeys].
  assert (Hseg : skipn (packedStart r) (remainingAccounts r)
                 = List.map snd (JsMap.values (map this))).
  { subst r. rewrite (well_indexed_packed_segment _ Hwi).
    cbn [packedStart fst toAccountMetas].
    rewrite app_assoc, skipn_app, <- length_app, skipn_all, Nat.sub_diag.
    reflexivity. }
  assert (Haddr : List.map address (List.map snd (JsMap.values (map this)))
                  = JsMap.keys (map this)).
  { unfold JsMap.values, JsMap.keys. rewrite !map_map.
    apply map_ext_in. intros kv Hin.
    now apply (proj1 (Forall_forall _ _) Hkeys). }
  rewrite Hseg, Haddr. split; [reflexivity|]. split; [exact Hnd|].
  destruct Hwi as [_ ->]. unfold JsMap.values, JsMap.size.
  now rewrite !length_map.
Qed.

(** X5 at work: [P] asked for twice around [Q]. *)
Lemma packed_segment_addresses_witness :
  let this :=
    perform_all (fun p _ => Ok (p, 255))
      [CallInsert (CallInsertOrGet "P"); CallAddPreAccountsSigner "P";
       CallInsert (CallInsertOrGetReadOnly "Q");
       CallInsert (CallInsertOrGetConfig "P" true true)] new_PackedAccounts in
  List.map address
    (skipn (packedStart (fst (toAccountMetas this)))
       (remainingAccounts (fst (toAccountMetas this))))
  = ["P"; "Q"].
Proof.
  refine (proj1 (packed_segment_addresses (fun p _ => Ok (p, 255)) _ _)).
  repeat apply reachable_perform. apply reachable_new.
Defined.

(** X6. An index handed out stays good: after an insert of [a] into a
    reachable instance returned [i], and after any further method calls, the
    final list has at [packedStart + i] a meta for [a]; if [a] was new, its
    role is the one the flags of that insert ask for. *)
Theorem index_stays_valid
    (derive : Address -> list string -> result (Address * nat))
    (this : PackedAccounts) (a : Address) (s w : bool) (calls : list Call) :
  reachable derive this ->
  let i := fst (insertOrGetConfig a s w this) in
  let later := perform_all derive calls (snd (insertOrGetConfig a s w this)) in
  let r := fst (toAccountMetas later) in
  exists meta,
    nth_error (remainingAccounts r) (packedStart r + i) = Some meta
    /\ address meta = a
    /\ (JsMap.get (map this) a = None ->
        role meta = if s then if w then WRITABLE_SIGNER else READONLY_SIGNER
                    else if w then WRITABLE else READONLY)
    /\ fst (insertOrGetConfig a s w later) = i.
Proof.
  intros Hreach i later r.
  destruct (insertOrGetConfig_entry a s w this) as (meta & Hentry & Hnew).
  fold i in Hentry.
  pose proof (reachable_insertOrGetConfig derive a s w this Hreach) as Hreach1.
  pose proof (perform_all_keeps_entry derive calls _ _ _ Hentry) as Hlater.
  fold later in Hlater.
  pose proof (reachable_perform_all derive calls _ Hreach1) as Hreach2.
  fold later in Hreach2.
  exists meta. split; [|split; [|split]].
  - apply (well_indexed_nth later a i meta);
      [now apply (reachable_well_indexed derive) | exact Hlater].
  - destruct (reachable_well_keyed derive later Hreach2) as [_ Hkeys].
    exact (proj1 (Forall_forall _ _) Hkeys _ (get_Some_In _ _ _ _ Hlater)).
  - intros Ha. now rewrite (Hnew Ha).
  - now rewrite (insertOrGetConfig_present _ _ _ _ _ Hlater).
Qed.

(** X6 at work: [P] inserted read-only, then more accounts of every kind. *)
Lemma index_stays_valid_witness :
  let derive := fun p (_ : list string) => Ok (p, 255) in
  let i := fst (insertOrGetConfig "P" false false new_PackedAccounts) in
  let later :=
    perform_all derive
      [CallAddPreAccountsSignerMut "S"; CallInsert (CallInsertOrGet "Q");
       CallAddSystemAccountsV2 (SystemAccountMetaConfig_static.new "A")
         (mkLightSystemConfig None None "B" None);
       CallInsert (CallInsertOrGetConfig "P" true true)]
      (snd (insertOrGetConfig "P" false false new_PackedAccounts)) in
  let r := fst (toAccountMetas later) in
  exists meta,
    nth_error (remainingAccounts r) (packedStart r + i) = Some meta
    /\ address meta = "P"
    /\ (JsMap.get (map new_PackedAccounts) "P" = None -> role meta = READONLY)
    /\ fst (insertOrGetConfig "P" false false later) = i.
Proof.
  refine (index_stays_valid (fun p _ => Ok (p, 255)) new_PackedAccounts "P"
            false false _ _).
  apply reachable_new.
Defined.

(** ** Packed accounts: the other two regions *)

(** X7. [addPreAccountsMeta] puts its meta where the system region used to
    start and moves everything after it one place up: both offsets grow by
    one, the map and the counter are untouched, and a packed index still
    finds the same meta.  [addPreAccountsSigner] and [addPreAccountsSignerMut]
    do the same with a read-only signer and a writable signer; nothing is
    deduplicated. *)
Theorem addPreAccounts_shift (m : AccountMeta) (this : PackedAccounts) :
  let r := fst (toAccountMetas this) in
  let this' := addPreAccountsMeta m this in
  let r' := fst (toAccountMetas this') in
  remainingAccounts r'
    = firstn (systemStart r) (remainingAccounts r)
        ++ m :: skipn (systemStart r) (remainingAccounts r)
  /\ systemStart r' = S (systemStart r)
  /\ packedStart r' = S (packedStart r)
  /\ map this' = map this /\ nextIndex this' = nextIndex this
  /\ systemAccounts this' = systemAccounts this
  /\ (forall k, nth_error (remainingAccounts r') (packedStart r' + k)
                = nth_error (remainingAccounts r) (packedStart r + k))
  /\ (forall a, addPreAccountsSigner a this
                = addPreAccountsMeta (mkMeta a READONLY_SIGNER) this)
  /\ (forall a, addPreAccountsSignerMut a this
                = addPreAccountsMeta (mkMeta a WRITABLE_SIGNER) this).
Proof.
  cbn zeta. rewrite !toAccountMetas_remainingAccounts.
  unfold addPreAccountsMeta, push.
  cbn [toAccountMetas fst systemStart packedStart set_preAccounts preAccounts
       systemAccounts map nextIndex].
  set (packed := List.map snd (sort byIndex (JsMap.values (map this)))).
  rewrite firstn_app, firstn_all, Nat.sub_diag, skipn_app, skipn_all,
    Nat.sub_diag.
  cbn [firstn skipn]. rewrite !app_nil_r. cbn [app].
  rewrite length_app. cbn [length].
  split; [now rewrite <- app_assoc|].
  split; [lia|]. split; [lia|]. repeat (split; [reflexivity|]).
  split; [|split; reflexivity].
  intros k.
  rewrite !app_assoc.
  rewrite !nth_error_app2 by (rewrite !length_app; cbn; lia).
  f_equal. rewrite !length_app. cbn. lia.
Qed.

(** X8. [addSystemAccountsV2] either rejects, leaving the instance as it was,
    or appends the 6 to 9 metas of [getLightSystemAccountMetasV2] to the
    system region, whatever is there already: [packedStart] grows by their
    number, and the map, the counter and the pre-accounts are untouched. *)
Theorem addSystemAccountsV2_effect
    (derive : Address -> list string -> result (Address * nat))
    (config : SystemAccountMetaConfig) (lightSystemConfig : LightSystemConfig)
    (this : PackedAccounts) :
  match addSystemAccountsV2 derive config lightSystemConfig this with
  | (Ok _, this') =>
      exists metas,
        getLightSystemAccountMetasV2 derive config lightSystemConfig = Ok metas
        /\ 6 <= length metas <= 9
        /\ systemAccounts this' = systemAccounts this ++ metas
        /\ map this' = map this /\ nextIndex this' = nextIndex this
        /\ preAccounts this' = preAccounts this
        /\ systemStart (fst (toAccountMetas this'))
           = systemStart (fst (toAccountMetas this))
        /\ packedStart (fst (toAccountMetas this'))
           = packedStart (fst (toAccountMetas this)) + length metas
  | (Throw e, this') =>
      this' = this
      /\ getLightSystemAccountMetasV2 derive config lightSystemConfig = Throw e
  end.
Proof.
  unfold addSystemAccountsV2.
  destruct (getLightSystemAccountMetasV2 derive config lightSystemConfig)
    as [metas|e] eqn:E; [|now split].
  exists metas. split; [reflexivity|].
  split; [now apply (getLightSystemAccountMetasV2_length derive config
                       lightSystemConfig)|].
  cbn. rewrite length_app. repeat split; lia.
Qed.

(** X9. [newWithSystemAccountsV2] rejects exactly when
    [getLightSystemAccountMetasV2] does; otherwise the instance has those
    metas as its system region and nothing else: [systemStart] is 0,
    [packedStart] is between 6 and 9 and is the length of the final list, and
    the first address inserted gets index 0. *)
Theorem newWithSystemAccountsV2_instance
    (derive : Address -> list string -> result (Address * nat))
    (config : SystemAccountMetaConfig) (lightSystemConfig : LightSystemConfig) :
  match newWithSystemAccountsV2 derive config lightSystemConfig with
  | Ok instance =>
      getLightSystemAccountMetasV2 derive config lightSystemConfig
        = Ok (systemAccounts instance)
      /\ reachable derive instance
      /\ map instance = JsMap.empty /\ nextIndex instance = 0
      /\ preAccounts instance = []
      /\ (let r := fst (toAccountMetas instance) in
          systemStart r = 0
          /\ 6 <= packedStart r <= 9
          /\ remainingAccounts r = systemAccounts instance
          /\ packedStart r = length (remainingAccounts r))
      /\ forall a s w, fst (insertOrGetConfig a s w instance) = 0
  | Throw e =>
      getLightSystemAccountMetasV2 derive config lightSystemConfig = Throw e
  end.
Proof.
  pose proof (@reachable_perform derive
                (CallAddSystemAccountsV2 config lightSystemConfig)
                new_PackedAccounts (reachable_new derive)) as Hreach.
  unfold newWithSystemAccountsV2. cbn [perform] in Hreach.
  unfold addSystemAccountsV2 in *.
  destruct (getLightSystemAccountMetasV2 derive config lightSystemConfig)
    as [metas|e] eqn:E; [|reflexivity].
  cbn in *. split; [reflexivity|]. split; [exact Hreach|].
  repeat (split; [reflexivity|]). split; [|reflexivity].
  pose proof (getLightSystemAccountMetasV2_length _ _ _ _ E).
  rewrite app_nil_r. repeat split; lia.
Qed.

(** ** Packed accounts: inserting the same address again *)

Lemma insertOrGetConfig_keys a s w this :
  (In a (JsMap.keys (map this))
   /\ JsMap.keys (map (snd (insertOrGetConfig a s w this))) = JsMap.keys (map this))
  \/ (~ In a (JsMap.keys (map this))
      /\ JsMap.keys (map (snd (insertOrGetConfig a s w this)))
         = JsMap.keys (map this) ++ [a]).
Proof.
  destruct (JsMap.get (map this) a) as [e|] eqn:E.
  - left. rewrite (insertOrGetConfig_present _ _ _ _ _ E). split; [|reflexivity].
    apply get_Some_In in E. unfold JsMap.keys.
    change a with (fst (a, e)). now apply in_map.
  - right. rewrite (insertOrGetConfig_absent _ _ _ _ E). cbn [snd map].
    split; [now apply get_None_iff in E|].
    unfold JsMap.keys. now rewrite map_app.
Qed.

Section InsertAgain.

Variable derive : Address -> list string -> result (Address * nat).

Lemma reachable_perform_inserts calls :
  forall this,
    reachable derive this -> reachable derive (snd (perform_inserts calls this)).
Proof.
  induction calls as [|c calls IH]; intros this H; [exact H|].
  rewrite perform_inserts_cons. cbn [snd]. apply IH.
  now apply reachable_perform_insert.
Qed.

Lemma perform_inserts_keys calls :
  forall this,
    reachable derive this ->
    let keys' := JsMap.keys (map (snd (perform_inserts calls this))) in
    Forall2 (fun c i => nth_error keys' i = Some (inserted_address c))
      calls (fst (perform_inserts calls this))
    /\ (exists extra, keys' = JsMap.keys (map this) ++ extra)
    /\ (forall a, In a keys'
                  <-> In a (JsMap.keys (map this))
                      \/ In a (List.map inserted_address calls)).
Proof.
  induction calls as [|c calls IH]; intros this Hreach; cbn zeta.
  - cbn. split; [constructor|]. split; [exists []; now rewrite app_nil_r|].
    intros a. tauto.
  - rewrite perform_inserts_cons. cbn [fst snd].
    pose proof (reachable_perform_insert derive c this Hreach) as Hreach1.
    destruct (IH _ Hreach1) as (Hall & (extra & Hextra) & Hin).
    destruct (perform_insert_config c this) as (s & w & Hc).
    rewrite Hc in *. set (a := inserted_address c) in *.
    set (this1 := snd (insertOrGetConfig a s w this)) in *.
    set (keys' := JsMap.keys (map (snd (perform_inserts calls this1)))) in *.
    split; [|split].
    + constructor; [|exact Hall].
      destruct (insertOrGetConfig_entry a s w this) as (meta & Hentry & _).
      fold this1 in Hentry.
      pose proof (well_indexed_entry this1 a _ meta
                    (reachable_well_indexed derive this1 Hreach1) Hentry) as Hnth.
      assert (Hk : nth_error (JsMap.keys (map this1))
                     (fst (insertOrGetConfig a s w this)) = Some a).
      { unfold JsMap.keys. now rewrite nth_error_map, Hnth. }
      rewrite Hextra, nth_error_app1; [exact Hk|].
      apply nth_error_Some. now rewrite Hk.
    + destruct (insertOrGetConfig_keys a s w this) as [[_ Hk]|[_ Hk]];
        fold this1 in Hk; rewrite Hextra, Hk.
      * now exists extra.
      * exists ([a] ++ extra). now rewrite app_assoc.
    + intros b. rewrite Hin. cbn [List.map In]. fold a.
      destruct (insertOrGetConfig_keys a s w this) as [[Hpresent Hk]|[_ Hk]];
        fold this1 in Hk; rewrite Hk.
      * split; [tauto|]. intros [H|[<-|H]]; auto.
      * rewrite in_app_iff. cbn [In]. tauto.
Qed.

End InsertAgain.

(** X10. For any sequence of insert calls on a reachable instance,
    repetitions included, each returned index is the place of the call's
    address among the keys of the resulting map; the earlier keys keep their
    places, and the resulting keys are the earlier ones and the inserted
    addresses, each once. *)
Theorem perform_inserts_addresses
    (derive : Address -> list string -> result (Address * nat))
    (calls : list InsertCall) (this : PackedAccounts) :
  reachable derive this ->
  let keys' := JsMap.keys (map (snd (perform_inserts calls this))) in
  Forall2 (fun c i => nth_error keys' i = Some (inserted_address c))
    calls (fst (perform_inserts calls this))
  /\ firstn (JsMap.size (map this)) keys' = JsMap.keys (map this)
  /\ NoDup keys'
  /\ (forall a, In a keys'
                <-> In a (JsMap.keys (map this))
                    \/ In a (List.map inserted_address calls))
  /\ nextIndex (snd (perform_inserts calls this)) = length keys'.
Proof.
  intros Hreach keys'.
  destruct (perform_inserts_keys derive calls this Hreach)
    as (Hall & (extra & Hextra) & Hin).
  fold keys' in Hall, Hextra, Hin.
  pose proof (reachable_perform_inserts derive calls this Hreach) as Hreach'.
  split; [exact Hall|]. split; [|split; [|split; [exact Hin|]]].
  - rewrite Hextra. unfold JsMap.size, JsMap.keys.
    rewrite <- (length_map fst (map this)), firstn_app, firstn_all, Nat.sub_diag.
    cbn. now rewrite app_nil_r.
  - exact (proj1 (reachable_well_keyed derive _ Hreach')).
  - destruct (reachable_well_indexed derive _ Hreach') as [_ ->].
    unfold keys', JsMap.size, JsMap.keys. now rewrite length_map.
Qed.

(** X10 at work: [P, Q, P, R, Q] get the indices [0, 1, 0, 2, 1]. *)
Lemma perform_inserts_addresses_witness :
  let calls :=
    [CallInsertOrGet "P"; CallInsertOrGetReadOnly "Q";
     CallInsertOrGetConfig "P" true true; CallInsertOrGet "R";
     CallInsertOrGet "Q"] in
  Forall2 (fun c i => nth_error ["P"; "Q"; "R"] i = Some (inserted_address c))
    calls [0; 1; 0; 2; 1].
Proof.
  refine (proj1 (perform_inserts_addresses (fun p _ => Ok (p, 255))
            [CallInsertOrGet "P"; CallInsertOrGetReadOnly "Q";
             CallInsertOrGetConfig "P" true true; CallInsertOrGet "R";
             CallInsertOrGet "Q"] new_PackedAccounts _)).
  apply reachable_new.
Defined.

(** ** Remaining accounts *)

Lemma withRemainingAccounts_accounts (Other : Type)
    (instruction : InstructionWithAccounts Other)
    (remaining : option (list AccountMeta)) :
  ix_accounts (withRemainingAccounts instruction remaining)
    = ix_accounts instruction ++ nullish_or remaining []
  /\ ix_other (withRemainingAccounts instruction remaining) = ix_other instruction.
Proof.
  destruct remaining as [[|m r]|]; cbn; now rewrite ?app_nil_r.
Qed.

(** X11. [withRemainingAccounts] keeps the accounts of the instruction in
    place and puts the remaining accounts after them, in order; an absent
    and an empty list both leave the instruction as it is; the rest of the
    instruction is kept.  Appending in two steps is appending the
    concatenation. *)
Theorem withRemainingAccounts_appends (Other : Type)
    (instruction : InstructionWithAccounts Other)
    (remaining : list AccountMeta) :
  ix_accounts (withRemainingAccounts instruction (Some remaining))
    = ix_accounts instruction ++ remaining
  /\ ix_other (withRemainingAccounts instruction (Some remaining))
     = ix_other instruction
  /\ withRemainingAccounts instruction None = instruction
  /\ withRemainingAccounts instruction (Some []) = instruction
  /\ (forall i, i < length (ix_accounts instruction) ->
        nth_error (ix_accounts (withRemainingAccounts instruction (Some remaining))) i
        = nth_error (ix_accounts instruction) i)
  /\ (forall more,
        withRemainingAccounts
          (withRemainingAccounts instruction (Some remaining)) (Some more)
        = withRemainingAccounts instruction (Some (remaining ++ more))).
Proof.
  destruct (withRemainingAccounts_accounts Other instruction (Some remaining))
    as [Haccounts Hother].
  cbn [nullish_or] in Haccounts.
  split; [exact Haccounts|]. split; [exact Hother|].
  split; [reflexivity|]. split; [reflexivity|]. split.
  - intros i Hi. rewrite Haccounts. now apply nth_error_app1.
  - intros more. destruct instruction as [accounts other].
    destruct remaining as [|m r], more as [|m' r']; cbn;
      rewrite ?app_nil_r, <- ?app_assoc; reflexivity.
Qed.

(** ** Common accounts and the SDK object *)

(** [x ?? y?.f ?? z], spelled out. *)
Lemma nullish_or3_cases (x : option Address) (defaults : option Common.t)
    (field : Common.t -> option Address) (fallback : Address) :
  nullish_or3 x (optional_chain defaults field) fallback
  = match x, defaults with
    | Some a, _ => a
    | None, Some d => match field d with Some a => a | None => fallback end
    | None, None => fallback
    end.
Proof. now destruct x, defaults. Qed.

(** X12. [resolveCommonAccounts] takes each of the four accounts from the
    call if given there, else from the SDK defaults if given there, else the
    constant (for the authority: the address derived from the program
    address).  It rejects only when the authority is given nowhere and its
    derivation rejects. *)
Theorem resolveCommonAccounts_precedence
    (derive : Address -> list string -> result (Address * nat))
    (programAddress : Address) (defaults : option Common.t)
    (overrides : Common.t) :
  let pick (field : Common.t -> option Address) (fallback : Address) :=
    match field overrides, defaults with
    | Some a, _ => a
    | None, Some d => match field d with Some a => a | None => fallback end
    | None, None => fallback
    end in
  let supplied :=
    match Common.accountCompressionAuthority overrides, defaults with
    | Some a, _ => Some a
    | None, Some d => Common.accountCompressionAuthority d
    | None, None => None
    end in
  (forall resolved,
     resolveCommonAccounts derive programAddress defaults overrides = Ok resolved
     <-> (supplied = Some (Resolved.accountCompressionAuthority resolved)
          \/ (supplied = None
              /\ exists bump,
                   derive programAddress [CPI_AUTHORITY_SEED]
                   = Ok (Resolved.accountCompressionAuthority resolved, bump)))
         /\ Resolved.accountCompressionProgram resolved
            = pick Common.accountCompressionProgram
                DEFAULT_ACCOUNT_COMPRESSION_PROGRAM_ADDRESS
         /\ Resolved.noopProgram resolved
            = pick Common.noopProgram DEFAULT_NOOP_PROGRAM_ADDRESS
         /\ Resolved.registeredProgramPda resolved
            = pick Common.registeredProgramPda
                DEFAULT_REGISTERED_PROGRAM_PDA_ADDRESS)
  /\ (forall e,
        resolveCommonAccounts derive programAddress defaults overrides = Throw e
        <-> supplied = None
            /\ derive programAddress [CPI_AUTHORITY_SEED] = Throw e).
Proof.
  cbn zeta. unfold resolveCommonAccounts, deriveAccountCompressionAuthority.
  rewrite !nullish_or3_cases.
  assert (Hchain :
    optional_chain defaults Common.accountCompressionAuthority
    = match defaults with
      | Some d => Common.accountCompressionAuthority d
      | None => None
      end) by reflexivity.
  rewrite Hchain. clear Hchain.
  set (supplied :=
    match Common.accountCompressionAuthority overrides, defaults with
    | Some a, _ => Some a
    | None, Some d => Common.accountCompressionAuthority d
    | None, None => None
    end).
  assert (Hsup :
    match Common.accountCompressionAuthority overrides with
    | Some a => Ok a
    | None =>
        match
          match defaults with
          | Some d => Common.accountCompressionAuthority d
          | None => None
          end
        with
        | Some a => Ok a
        | None =>
            result_bind (derive programAddress [CPI_AUTHORITY_SEED])
              (fun pda => Ok (fst pda))
        end
    end
    = match supplied with
      | Some a => Ok a
      | None => result_bind (derive programAddress [CPI_AUTHORITY_SEED])
                  (fun pda => Ok (fst pda))
      end).
  { subst supplied.
    destruct (Common.accountCompressionAuthority overrides); [reflexivity|].
    destruct defaults as [d|]; reflexivity. }
  rewrite Hsup. clear Hsup. split.
  - intros [authority program noop pda]. cbn [Resolved.accountCompressionAuthority
      Resolved.accountCompressionProgram Resolved.noopProgram
      Resolved.registeredProgramPda].
    destruct supplied as [a|]; cbn [result_bind].
    + split.
      * intros H. injection H as <- <- <- <-. repeat split. now left.
      * intros ([H|[H _]] & <- & <- & <-); [|discriminate].
        now injection H as <-.
    + destruct (derive programAddress [CPI_AUTHORITY_SEED]) as [[a bump]|e];
        cbn [result_bind fst].
      * split.
        -- intros H. injection H as <- <- <- <-. repeat split.
           right. split; [reflexivity|]. now exists bump.
        -- intros ([H|[_ [bump' H]]] & <- & <- & <-); [discriminate|].
           now injection H as <- _.
      * split; [discriminate|].
        intros ([H|[_ [bump' H]]] & _); discriminate.
  - intros e. destruct supplied as [a|]; cbn [result_bind].
    + split; [discriminate | intros [H _]; discriminate].
    + destruct (derive programAddress [CPI_AUTHORITY_SEED]) as [[a bump]|e'];
        cbn [result_bind].
      * split; [discriminate | intros [_ H]; discriminate].
      * split.
        -- intros H. injection H as ->. now split.
        -- intros [_ H]. now injection H as ->.
Qed.

Section SdkFacts.

Variable derive : Address -> list string -> result (Address * nat).
Variables InvokeRest InvokeCpiRest InvokeCpiWithReadOnlyRest : Type.
Variables InitCpiContextAccountInput Other : Type.
Variable getInvoke :
  Build.Generated InvokeRest -> Address -> InstructionWithAccounts Other.
Variable getInvokeCpi :
  Build.Generated InvokeCpiRest -> Address -> InstructionWithAccounts Other.
Variable getInvokeCpiWithReadOnly :
  Build.Generated InvokeCpiWithReadOnlyRest -> Address
  -> InstructionWithAccounts Other.
Variable getInit :
  InitCpiContextAccountInput -> Address -> InstructionWithAccounts Other.

Lemma buildWith_cases (Rest : Type)
    (getter : Build.Generated Rest -> Address -> InstructionWithAccounts Other)
    (programAddress : Address) (defaults : option Common.t)
    (input : Build.Input Rest) :
  match buildWith derive getter programAddress defaults input with
  | Ok instruction =>
      exists common,
        resolveCommonAccounts derive programAddress defaults (Build.overrides input)
          = Ok common
        /\ let generated :=
             getter
               {| Build.g_common := common;
                  Build.g_systemProgram :=
                    match Build.systemProgram input with
                    | Some a => a
                    | None => DEFAULT_SYSTEM_PROGRAM_ADDRESS
                    end;
                  Build.g_remainingAccounts := Build.remainingAccounts input;
                  Build.g_rest := Build.rest input |}
               programAddress in
           ix_accounts instruction
             = ix_accounts generated
                 ++ match Build.remainingAccounts input with
                    | Some remaining => remaining
                    | None => []
                    end
           /\ ix_other instruction = ix_other generated
  | Throw e =>
      resolveCommonAccounts derive programAddress defaults (Build.overrides input)
        = Throw e
  end.
Proof.
  unfold buildWith.
  destruct (resolveCommonAccounts derive programAddress defaults
              (Build.overrides input)) as [common|e]; cbn [result_bind];
    [|reflexivity].
  exists common. split; [reflexivity|]. cbn zeta.
  apply withRemainingAccounts_accounts.
Qed.

(** X13. Each of [buildInvokeInstruction], [buildInvokeCpiInstruction] and
    [buildInvokeCpiWithReadOnlyInstruction] of the SDK object rejects exactly
    when [resolveCommonAccounts] does; otherwise its instruction is the one
    the generated getter makes from the input, the resolved common accounts
    and the system program (the constant if the input has none), with the
    remaining accounts of the input after the getter's accounts.
    [buildInitCpiContextAccountInstruction] is the generated getter at the
    SDK's program address. *)
Theorem sdk_builders (defaults : option Common.t) (programAddress : Address) :
  let sdk :=
    createLightSystemProgramSdk derive getInvoke getInvokeCpi
      getInvokeCpiWithReadOnly getInit defaults programAddress in
  let built (Rest : Type)
      (getter : Build.Generated Rest -> Address -> InstructionWithAccounts Other)
      (build : Build.Input Rest -> result (InstructionWithAccounts Other)) :=
    forall input,
      match build input with
      | Ok instruction =>
          exists common,
            resolveCommonAccounts derive programAddress defaults
              (Build.overrides input) = Ok common
            /\ let generated :=
                 getter
                   {| Build.g_common := common;
                      Build.g_systemProgram :=
                        match Build.systemProgram input with
                        | Some a => a
                        | None => DEFAULT_SYSTEM_PROGRAM_ADDRESS
                        end;
                      Build.g_remainingAccounts := Build.remainingAccounts input;
                      Build.g_rest := Build.rest input |}
                   programAddress in
               ix_accounts instruction
                 = ix_accounts generated
                     ++ match Build.remainingAccounts input with
                        | Some remaining => remaining
                        | None => []
                        end
               /\ ix_other instruction = ix_other generated
      | Throw e =>
          resolveCommonAccounts derive programAddress defaults
            (Build.overrides input) = Throw e
      end in
  built InvokeRest getInvoke (buildInvokeInstruction sdk)
  /\ built InvokeCpiRest getInvokeCpi (buildInvokeCpiInstruction sdk)
  /\ built InvokeCpiWithReadOnlyRest getInvokeCpiWithReadOnly
       (buildInvokeCpiWithReadOnlyInstruction sdk)
  /\ (forall input,
        buildInitCpiContextAccountInstruction sdk input
        = getInit input programAddress)
  /\ sdk_programAddress sdk = programAddress.
Proof.
  cbn zeta. cbn [createLightSystemProgramSdk buildInvokeInstruction
    buildInvokeCpiInstruction buildInvokeCpiWithReadOnlyInstruction
    buildInitCpiContextAccountInstruction sdk_programAddress].
  split; [intros input; apply buildWith_cases|].
  split; [intros input; apply buildWith_cases|].
  split; [intros input; apply buildWith_cases|].
  split; reflexivity.
Qed.

(** X14. The [defaults] the SDK object shows are the ones its builders use:
    for a call that does not give the account compression program, the noop
    program or the registered program PDA, the resolved account is the one
    in [sdk.defaults]; and [sdk.defaults] holds the constants when the SDK
    was made without defaults. *)
Theorem sdk_defaults_used (defaults : option Common.t) (programAddress : Address)
    (overrides : Common.t) (resolved : Resolved.t) :
  resolveCommonAccounts derive programAddress defaults overrides = Ok resolved ->
  let sdk :=
    createLightSystemProgramSdk derive getInvoke getInvokeCpi
      getInvokeCpiWithReadOnly getInit defaults programAddress in
  (Common.accountCompressionProgram overrides = None ->
   Resolved.accountCompressionProgram resolved
   = SdkDefaults.accountCompressionProgram (sdk_defaults sdk))
  /\ (Common.noopProgram overrides = None ->
      Resolved.noopProgram resolved = SdkDefaults.noopProgram (sdk_defaults sdk))
  /\ (Common.registeredProgramPda overrides = None ->
      Resolved.registeredProgramPda resolved
      = SdkDefaults.registeredProgramPda (sdk_defaults sdk))
  /\ (defaults = None ->
      sdk_defaults sdk
      = SdkDefaults.mk DEFAULT_ACCOUNT_COMPRESSION_PROGRAM_ADDRESS
          DEFAULT_NOOP_PROGRAM_ADDRESS DEFAULT_REGISTERED_PROGRAM_PDA_ADDRESS).
Proof.
  unfold resolveCommonAccounts. intros H.
  destruct (match Common.accountCompressionAuthority overrides with
            | Some a => Ok a
            | None => _
            end) as [authority|e]; cbn [result_bind] in H; [|discriminate].
  injection H as <-. cbn.
  repeat split.
  - now intros ->.
  - now intros ->.
  - now intros ->.
  - now intros ->.
Qed.

End SdkFacts.

(** X14 at work: an SDK made with its own noop program, a call that names
    none. *)
Lemma sdk_defaults_used_witness :
  let getter (Rest : Type) :=
    fun (g : Build.Generated Rest) (_ : Address) =>
      mkInstructionWithAccounts [] (Build.g_common g) in
  let sdk :=
    createLightSystemProgramSdk (fun p _ => Ok ("pda:" ++ p, 255)%string)
      (getter unit) (getter unit) (getter unit)
      (fun (_ : unit) (_ : Address) =>
         mkInstructionWithAccounts []
           (Resolved.mk "" "" "" ""))
      (Some (Common.mk None None (Some "myNoop") None)) "SySTEM" in
  "myNoop" = SdkDefaults.noopProgram (sdk_defaults sdk).
Proof.
  refine (proj1 (proj2 (sdk_defaults_used
            (fun p _ => Ok ("pda:" ++ p, 255)%string) unit unit unit unit Resolved.t
            _ _ _ _
            (Some (Common.mk None None (Some "myNoop") None)) "SySTEM"
            Common.none
            (Resolved.mk "pda:SySTEM" DEFAULT_ACCOUNT_COMPRESSION_PROGRAM_ADDRESS
               "myNoop" DEFAULT_REGISTERED_PROGRAM_PDA_ADDRESS) _)) _);
    reflexivity.
Defined.

(** ** Building without a blockhash *)

(** X15. Without latestBlockhash but with an rpc, [buildAndSignTransaction]
    asks the rpc once, before anything else.  If the rpc rejects, that is
    the error and no message is built.  If it answers, the lifetime set is
    its answer, taken out of [value] when it is wrapped in one, and the
    message signed is built from the version given ('0' if none), the fee
    payer, that lifetime and the instructions, in this order. *)
Theorem buildAndSignTransaction_asks_rpc
    (TransactionSigner TransactionMessage Transaction : Type)
    (create : Version -> TransactionMessage)
    (setFeePayer : TransactionSigner -> TransactionMessage -> TransactionMessage)
    (setLifetime : BlockhashLifetimeConstraint -> TransactionMessage
                   -> TransactionMessage)
    (append : list Instruction -> TransactionMessage -> TransactionMessage)
    (sign : TransactionMessage -> result Transaction)
    (payer : TransactionSigner) (instrs : list Instruction)
    (v : option Version) (answer : result LatestBlockhashResponse)
    (log : list (Event TransactionSigner TransactionMessage)) :
  buildAndSignTransaction create setFeePayer setLifetime append sign
    (mkBuildInput payer instrs None (Some (mkRpc answer)) v) log
  = match answer with
    | Throw e => (Throw e, log ++ [RpcGetLatestBlockhash _ _])
    | Ok response =>
        let version := match v with Some v => v | None => V0 end in
        let lifetime :=
          match response with
          | Bare constraint => constraint
          | WithValue value => value
          end in
        let message :=
          append instrs (setLifetime lifetime (setFeePayer payer (create version))) in
        (sign message,
         log ++ [ RpcGetLatestBlockhash _ _;
                  CreateTransactionMessage _ _ version;
                  SetFeePayerSigner _ payer;
                  SetLifetimeUsingBlockhash _ _ lifetime;
                  AppendInstructions _ _ instrs;
                  SignWithSigners _ message ])
    end.
Proof.
  destruct answer as [response|e].
  - rewrite buildAndSignTransaction_rpc_answers. cbn zeta.
    unfold nullish_or. now destruct response.
  - apply buildAndSignTransaction_rpc_rejects.
Qed.

(** ** Sending *)

Section SendFacts.

Variables TransactionSigner TransactionMessage Transaction : Type.
Variables Signature RpcSubscriptions : Type.
Variable create : Version -> TransactionMessage.
Variable setFeePayer : TransactionSigner -> TransactionMessage -> TransactionMessage.
Variable setLifetime :
  BlockhashLifetimeConstraint -> TransactionMessage -> TransactionMessage.
Variable append : list Instruction -> TransactionMessage -> TransactionMessage.
Variable sign : TransactionMessage -> result Transaction.
Variable factory : RpcClient RpcSubscriptions -> Sender Transaction.
Variable assertLifetime : Transaction -> result unit.
Variable getSignature : Transaction -> result Signature.

Local Abbreviation build :=
  (buildAndSignTransaction create setFeePayer setLifetime append sign).
Local Abbreviation send :=
  (sendAndConfirmInstructions create setFeePayer setLifetime append sign factory
     assertLifetime getSignature).
Local Abbreviation Log :=
  (list (SendEvent TransactionSigner TransactionMessage Transaction
           RpcSubscriptions)).

(** What happens once there is a signed transaction and a sender. *)
Lemma send_after_build
    (input : SendAndConfirmInstructionsInput TransactionSigner Transaction
               RpcSubscriptions) (log : Log) :
  let b := buildInput input in
  let effective :=
    mkBuildInput (feePayer b) (instructions b) (latestBlockhash b)
      (match rpc b with
       | Some r => Some r
       | None => optional_chain (rpcClient input) (@client_rpc _)
       end) (version b) in
  let c := nullish_or (commitment input) Confirmed in
  let finish (sender : Sender Transaction) (t : Transaction) (log : Log) :=
    match assertLifetime t with
    | Throw e => (Throw e, log ++ [AssertBlockhashLifetime t])
    | Ok _ =>
        match sender t c with
        | Throw e => (Throw e, log ++ [AssertBlockhashLifetime t; InvokeSender t c])
        | Ok _ =>
            (getSignature t,
             log ++ [AssertBlockhashLifetime t; InvokeSender t c; GetSignature t])
        end
    end in
  send input log
  = match build effective [] with
    | (Throw e, events) => (Throw e, log ++ List.map Building events)
    | (Ok t, events) =>
        let log := log ++ List.map Building events in
        match sendAndConfirmTransaction input, rpcClient input with
        | Some sender, _ => finish sender t log
        | None, Some client => finish (factory client) t (log ++ [MakeSender client])
        | None, None =>
            (Throw "sendAndConfirmTransaction or rpcClient is required.", log)
        end
    end.
Proof.
  cbn zeta. unfold sendAndConfirmInstructions, send_bind,
    send_building.
  destruct (buildAndSignTransaction _ _ _ _ _ _ []) as [[t|e] events];
    [|reflexivity].
  destruct (sendAndConfirmTransaction input) as [sender|];
    [|destruct (rpcClient input) as [client|]];
    unfold send_ret, send_call, send_throw; cbn;
    try reflexivity;
    destruct (assertLifetime t); try reflexivity;
    match goal with
    | |- context [?f t (nullish_or (commitment input) Confirmed)] =>
        destruct (f t (nullish_or (commitment input) Confirmed))
    end;
    rewrite <- ?app_assoc; reflexivity.
Qed.

(** X16. Without a sender and without an rpcClient, [sendAndConfirmInstructions]
    never succeeds and never sends; the transaction is built and signed all
    the same, and only then comes the error 'sendAndConfirmTransaction or
    rpcClient is required.' *)
Theorem send_requires_sender
    (b : BuildAndSignTransactionInput TransactionSigner)
    (c : option Commitment) (log : Log) :
  let out := send (mkSendInput b c None None) log in
  let built := build b [] in
  snd out = log ++ List.map Building (snd built)
  /\ fst out
     = match fst built with
       | Ok _ => Throw "sendAndConfirmTransaction or rpcClient is required."
       | Throw e => Throw e
       end
  /\ (forall signature, fst out <> Ok signature)
  /\ existsb (@is_send _ _ _ _)
       (List.map (@Building _ _ Transaction RpcSubscriptions) (snd built))
     = false.
Proof.
  cbn zeta. rewrite send_after_build.
  cbn [buildInput rpcClient sendAndConfirmTransaction optional_chain].
  replace (mkBuildInput (feePayer b) (instructions b) (latestBlockhash b)
             match rpc b with Some r => Some r | None => None end (version b))
    with b by (destruct b as [? ? ? [r|] ?]; reflexivity).
  destruct (build b []) as [[t|e] events]; cbn [fst snd];
    (split; [reflexivity|]); (split; [reflexivity|]);
    (split; [discriminate|]);
    induction events; cbn; auto.
Qed.

(** X17. If building or signing fails, the error is that of
    [sendAndConfirmInstructions], whatever sender or rpcClient it was given:
    no sender is made or called.  The rpc used for the blockhash is that of
    the input, else that of the rpcClient. *)
Theorem send_build_fails
    (input : SendAndConfirmInstructionsInput TransactionSigner Transaction
               RpcSubscriptions)
    (e : string) (events : list (Event TransactionSigner TransactionMessage))
    (log : Log) :
  let b := buildInput input in
  build
    (mkBuildInput (feePayer b) (instructions b) (latestBlockhash b)
       (match rpc b, rpcClient input with
        | Some r, _ => Some r
        | None, Some client => client_rpc client
        | None, None => None
        end) (version b)) []
    = (Throw e, events) ->
  send input log = (Throw e, log ++ List.map Building events).
Proof.
  cbn zeta. intros H. rewrite send_after_build. cbn zeta.
  replace (match rpc (buildInput input) with
           | Some r => Some r
           | None => optional_chain (rpcClient input) (@client_rpc _)
           end)
    with (match rpc (buildInput input), rpcClient input with
          | Some r, _ => Some r
          | None, Some client => client_rpc client
          | None, None => None
          end)
    by (destruct (rpc (buildInput input)), (rpcClient input); reflexivity).
  now rewrite H.
Qed.

(** X18. With a sender passed in, once the transaction is signed: its
    lifetime is asserted, the sender is called with it and the commitment
    ('confirmed' if none is given), and the signature is read off it, each
    step only if the one before did not throw.  The factory is not called,
    rpcClient or not. *)
Theorem send_with_sender
    (b : BuildAndSignTransactionInput TransactionSigner)
    (c : option Commitment) (client : option (RpcClient RpcSubscriptions))
    (sender : Sender Transaction)
    (t : Transaction) (events : list (Event TransactionSigner TransactionMessage))
    (log : Log) :
  build
    (mkBuildInput (feePayer b) (instructions b) (latestBlockhash b)
       (match rpc b, client with
        | Some r, _ => Some r
        | None, Some client => client_rpc client
        | None, None => None
        end) (version b)) []
    = (Ok t, events) ->
  let commitment := match c with Some c => c | None => Confirmed end in
  let log' := log ++ List.map Building events in
  send (mkSendInput b c client (Some sender)) log
  = match assertLifetime t with
    | Throw e => (Throw e, log' ++ [AssertBlockhashLifetime t])
    | Ok _ =>
        match sender t commitment with
        | Throw e =>
            (Throw e,
             log' ++ [AssertBlockhashLifetime t; InvokeSender t commitment])
        | Ok _ =>
            (getSignature t,
             log' ++ [AssertBlockhashLifetime t; InvokeSender t commitment;
                      GetSignature t])
        end
    end.
Proof.
  intros H. cbn zeta. rewrite send_after_build. cbn zeta.
  cbn [buildInput rpcClient sendAndConfirmTransaction commitment].
  replace (match rpc b with
           | Some r => Some r
           | None => optional_chain client (@client_rpc _)
           end)
    with (match rpc b, client with
          | Some r, _ => Some r
          | None, Some client => client_rpc client
          | None, None => None
          end)
    by (destruct (rpc b), client; reflexivity).
  rewrite H. reflexivity.
Qed.

(** X19. With nothing but an rpcClient (no blockhash, no rpc, no sender): the
    blockhash is asked of the rpcClient's rpc, the message is built with its
    answer and signed, the sender is made by the factory from the rpcClient,
    and then called; in this order. *)
Theorem send_with_rpcClient
    (payer : TransactionSigner) (instrs : list Instruction)
    (v : option Version) (c : option Commitment)
    (response : LatestBlockhashResponse) (subscriptions : RpcSubscriptions)
    (t : Transaction) (log : Log) :
  let client := mkRpcClient (Some (mkRpc (Ok response))) subscriptions in
  let version := match v with Some v => v | None => V0 end in
  let commitment := match c with Some c => c | None => Confirmed end in
  let answered := normalizeBlockhashLifetimeConstraint response in
  let message :=
    append instrs (setLifetime answered (setFeePayer payer (create version))) in
  sign message = Ok t ->
  assertLifetime t = Ok tt ->
  factory client t commitment = Ok tt ->
  send (mkSendInput (mkBuildInput payer instrs None None v) c (Some client) None)
    log
  = (getSignature t,
     log ++ [ Building (RpcGetLatestBlockhash _ _);
              Building (CreateTransactionMessage _ _ version);
              Building (SetFeePayerSigner _ payer);
              Building (SetLifetimeUsingBlockhash _ _ answered);
              Building (AppendInstructions _ _ instrs);
              Building (SignWithSigners _ message);
              MakeSender client;
              AssertBlockhashLifetime t;
              InvokeSender t commitment;
              GetSignature t ]).
Proof.
  cbn zeta. intros Hsign Hassert Hsend. rewrite send_after_build. cbn zeta.
  cbn [buildInput rpcClient sendAndConfirmTransaction commitment rpc feePayer
       instructions latestBlockhash version optional_chain client_rpc].
  unfold buildAndSignTransaction, resolveLatestBlockhash, io_bind, io_call,
    io_ret.
  cbn [latestBlockhash rpc feePayer instructions version getLatestBlockhash_send
       app]. unfold nullish_or.
  rewrite Hsign. cbn [List.map app].
  rewrite Hassert, Hsend, <- !app_assoc. reflexivity.
Qed.

End SendFacts.

(** X17 at work: a sender but neither blockhash nor rpc: the blockhash error,
    and the sender is not called. *)
Lemma send_build_fails_witness :
  sendAndConfirmInstructions (Signature := string) (RpcSubscriptions := unit)
    (fun _ => ["message"]) (fun payer m => m ++ [payer])
    (fun lifetime m => m ++ [blockhash lifetime])
    (fun instrs m => m ++ List.map programAddress instrs)
    (fun m => Ok m) (fun _ _ _ => Ok tt) (fun _ => Ok tt) (fun _ => Ok "signature")
    (mkSendInput (mkBuildInput "payer" [] None None None) None None
       (Some (fun _ _ => Throw "sent")))
    []
  = (Throw "latestBlockhash is required when rpc is not provided.", []).
Proof.
  refine (send_build_fails string (list string) (list string) string unit
            _ _ _ _ _ _ _ _
            (mkSendInput (mkBuildInput "payer" [] None None None) None None
               (Some (fun _ _ => Throw "sent")))
            "latestBlockhash is required when rpc is not provided." [] [] _).
  reflexivity.
Defined.

(** X18 at work, as in the repository's test of the injected sender: the
    blockhash is given, the sender is called once, the signature comes
    back. *)
Lemma send_with_sender_witness :
  let given := mkLifetime "11111111111111111111111111111111" 2 in
  let instrs := [mkInstruction None (Some [Byte.x01; Byte.x02])
                   "11111111111111111111111111111111"] in
  let signed := ["message"; "payer"; "11111111111111111111111111111111";
                 "11111111111111111111111111111111"] in
  sendAndConfirmInstructions (Signature := string) (RpcSubscriptions := unit)
    (fun _ => ["message"]) (fun payer m => m ++ [payer])
    (fun lifetime m => m ++ [blockhash lifetime])
    (fun instrs m => m ++ List.map programAddress instrs)
    (fun m => Ok m) (fun _ _ _ => Throw "factory") (fun _ => Ok tt)
    (fun _ => Ok "signature")
    (mkSendInput (mkBuildInput "payer" instrs (Some given) None None) None None
       (Some (fun _ _ => Ok tt)))
    []
  = (Ok "signature",
     [ Building (CreateTransactionMessage _ _ V0);
       Building (SetFeePayerSigner _ "payer");
       Building (SetLifetimeUsingBlockhash _ _ given);
       Building (AppendInstructions _ _ instrs);
       Building (SignWithSigners _ signed);
       AssertBlockhashLifetime signed;
       InvokeSender signed Confirmed;
       GetSignature signed ]).
Proof.
  cbv zeta.
  refine (send_with_sender string (list string) (list string) string unit
            _ _ _ _ _ _ _ _
            (mkBuildInput "payer" _ (Some _) None None) None None
            (fun _ _ => Ok tt)
            ["message"; "payer"; "11111111111111111111111111111111";
             "11111111111111111111111111111111"]
            [ CreateTransactionMessage _ _ V0;
              SetFeePayerSigner _ "payer";
              SetLifetimeUsingBlockhash _ _
                (mkLifetime "11111111111111111111111111111111" 2);
              AppendInstructions _ _
                [mkInstruction None (Some [Byte.x01; Byte.x02])
                   "11111111111111111111111111111111"];
              SignWithSigners _
                ["message"; "payer"; "11111111111111111111111111111111";
                 "11111111111111111111111111111111"] ]
            [] _).
  reflexivity.
Defined.

(** X19 at work, as in the repository's end-to-end test: only an rpcClient. *)
Lemma send_with_rpcClient_witness :
  let answered := mkLifetime "blockhash" 7 in
  let client := mkRpcClient (Some (mkRpc (Ok (WithValue answered)))) tt in
  let instrs := [mkInstruction None None
                   "MemoSq4gqABAXKb96qnH8TysNcWxMyWCqXgDLGmfcHr"] in
  let signed := ["message"; "payer"; "blockhash";
                 "MemoSq4gqABAXKb96qnH8TysNcWxMyWCqXgDLGmfcHr"] in
  sendAndConfirmInstructions (Signature := string)
    (fun _ => ["message"]) (fun payer m => m ++ [payer])
    (fun lifetime m => m ++ [blockhash lifetime])
    (fun instrs m => m ++ List.map programAddress instrs)
    (fun m => Ok m) (fun _ _ _ => Ok tt) (fun _ => Ok tt)
    (fun _ => Ok "signature")
    (mkSendInput (mkBuildInput "payer" instrs None None None) None (Some client)
       None)
    []
  = (Ok "signature",
     [ Building (RpcGetLatestBlockhash _ _);
       Building (CreateTransactionMessage _ _ V0);
       Building (SetFeePayerSigner _ "payer");
       Building (SetLifetimeUsingBlockhash _ _ answered);
       Building (AppendInstructions _ _ instrs);
       Building (SignWithSigners _ signed);
       MakeSender client;
       AssertBlockhashLifetime signed;
       InvokeSender signed Confirmed;
       GetSignature signed ]).
Proof.
  cbv zeta.
  refine (send_with_rpcClient string (list string) (list string) string unit
            _ _ _ _ _ _ _ _
            "payer" _ None None (WithValue (mkLifetime "blockhash" 7)) tt
            ["message"; "payer"; "blockhash";
             "MemoSq4gqABAXKb96qnH8TysNcWxMyWCqXgDLGmfcHr"] [] _ _ _);
    reflexivity.
Defined.
